(** * The Schelling segregation model of [schelling.py], embedded in Rocq

    The development has three parts.

    - Part I translates [schelling.py] function by function, in source
      order: [find_neighbors], [similarity] and [SchellingModel.run].
      Python integers are [Z], Python floats are the kernel's binary64
      floats, a NumPy array is a shape with a row-major buffer, and a
      raised exception is a [Raise] result.  The two random generators the
      program draws from ([numpy.random] at initialisation, [random] at
      each relocation) are inputs of the model.
    - Part II holds the vocabulary of the specification (cell states,
      population counts, the measured same-type fraction).
    - Part III holds the lemmas and the theorems. *)

From Stdlib Require Import ZArith Floats Lia.
From stdpp Require Import base tactics option list list_numbers sorting.
From Equations Require Import Equations.

#[local] Open Scope Z_scope.

(** * Part I: the program *)

(** ** Exceptions

    Only two built-in exceptions can leave the functions modelled here:
    the division [count / len] and the modulo [frame % show_every] raise
    [ZeroDivisionError]; indexing and [random.choice] on an empty sequence
    raise [IndexError].  The program defines no exception of its own and
    has no [try] or [raise] statement. *)

Inductive exn : Set :=
| ZeroDivisionError
| IndexError.

Inductive result (A : Type) : Type :=
| Ok (a : A)
| Raise (e : exn).

Arguments Ok {A} a.
Arguments Raise {A} e.

#[global] Instance result_ret : MRet result := λ A, Ok.

#[global] Instance result_bind : MBind result := λ A B f m,
  match m with
  | Ok a => f a
  | Raise e => Raise e
  end.

#[global] Instance exn_eq_dec : EqDecision exn.
Proof. solve_decision. Defined.

#[global] Instance result_eq_dec {A : Type} `{EqDecision A} : EqDecision (result A).
Proof. solve_decision. Defined.

(** A value together with the equation that names it, for definitions
    whose termination depends on what a call returned. *)
Definition inspect {A : Type} (a : A) : {b : A | a = b} := exist _ a eq_refl.

(** [for x in xs: st = body(st, x)], stopping at the first exception. *)
Fixpoint for_each {S A : Type} (body : S → A → result S) (xs : list A) (st : S)
  : result S :=
  match xs with
  | [] => Ok st
  | x :: xs' => st' ← body st x; for_each body xs' st'
  end.

(** [[f(x) for x in xs]], stopping at the first exception. *)
Fixpoint list_comp {A B : Type} (f : A → result B) (xs : list A) : result (list B) :=
  match xs with
  | [] => Ok []
  | x :: xs' => y ← f x; ys ← list_comp f xs'; Ok (y :: ys)
  end.

(** ** Built-ins *)

(** A coordinate is a Python tuple of two integers. *)
Definition coord : Type := Z * Z.

(** [range(start, stop)]; empty when [stop <= start]. *)
Definition range (start stop : Z) : list Z := seqZ start (stop - start).

(** [itertools.product(xs, ys)]: the rightmost iterable advances fastest. *)
Definition product (xs ys : list Z) : list coord :=
  x ← xs; y ← ys; [(x, y)].

(** [l.count(v)] *)
Definition count (v : Z) (l : list Z) : nat := length (filter (λ x, x = v) l).

(** [a / b] on two non-negative Python integers: true division, a float.
    Python rounds the exact quotient once; below [2^53] both operands are
    floats already and this is the binary64 division of the two. *)
Definition float_of_nat (n : nat) : float :=
  PrimFloat.of_uint63 (Uint63.of_Z (Z.of_nat n)).

Definition py_truediv (a b : nat) : result float :=
  match b with
  | O => Raise ZeroDivisionError
  | _ => Ok (float_of_nat a / float_of_nat b)%float
  end.

(** [a % b] on Python integers: the sign follows the divisor, as [Z.modulo]. *)
Definition py_mod (a b : Z) : result Z :=
  if decide (b = 0) then Raise ZeroDivisionError else Ok (a mod b).

(** ** NumPy arrays

    A two-dimensional integer array: its shape and its buffer in C
    (row-major) order.  An array built by NumPy has [h * w] cells. *)

Record ndarray : Set := NDArray {
  shape : nat * nat;
  data : list Z
}.

Definition wf_array (a : ndarray) : Prop :=
  length (data a) = ((shape a).1 * (shape a).2)%nat.

(** An index [k] along an axis of length [n]: negative indices count from
    the end, anything outside [-n, n) raises. *)
Definition axis_index (k : Z) (n : nat) : result nat :=
  if decide (0 ≤ k < Z.of_nat n) then Ok (Z.to_nat k)
  else if decide (- Z.of_nat n ≤ k < 0) then Ok (Z.to_nat (k + Z.of_nat n))
  else Raise IndexError.

Definition offset (a : ndarray) (c : coord) : result nat :=
  i ← axis_index c.1 (shape a).1;
  j ← axis_index c.2 (shape a).2;
  Ok (i * (shape a).2 + j)%nat.

(** [a[c]] *)
Definition getitem (a : ndarray) (c : coord) : result Z :=
  k ← offset a c;
  match data a !! k with
  | Some v => Ok v
  | None => Raise IndexError
  end.

(** [a[c] = v] *)
Definition setitem (a : ndarray) (c : coord) (v : Z) : result ndarray :=
  k ← offset a c;
  Ok (NDArray (shape a) (<[k := v]> (data a))).

(** [np.argwhere(a == v)]: the coordinates of the cells holding [v], in
    row-major order. *)
Definition argwhere_eq (a : ndarray) (v : Z) : list coord :=
  filter (λ c, getitem a c = Ok v)
    (product (range 0 (Z.of_nat (shape a).1)) (range 0 (Z.of_nat (shape a).2))).

(** ** [find_neighbors] (lines 12-44) *)

Definition find_neighbors (xy : coord) (n_rows n_cols neighbor_size : Z)
  : list coord :=
  filter (λ c, c ≠ xy ∧ 0 ≤ c.1 < n_rows ∧ 0 ≤ c.2 < n_cols)
    (product (range (xy.1 - neighbor_size) (xy.1 + neighbor_size + 1))
             (range (xy.2 - neighbor_size) (xy.2 + neighbor_size + 1))).

(** ** [similarity] (lines 46-83) *)

Definition similarity (grid : ndarray) (xy : coord) (neighbor_size : Z)
    (tolerance : float) : result bool :=
  let '(m, n) := shape grid in
  neighborhood ← list_comp (getitem grid)
                    (find_neighbors xy (Z.of_nat m) (Z.of_nat n) neighbor_size);
  own ← getitem grid xy;
  cnt ← py_truediv (count own neighborhood) (length neighborhood);
  if (cnt <? tolerance)%float then Ok true else Ok false.

(** ** [SchellingModel] (lines 85-155) *)

Record SchellingModel : Set := {
  size : nat * nat;
  neighbor_size : Z;
  neighbor_tol : float;
  prior_dist : list float;
  max_frame : Z;
  show_every : Z
}.

(** [np.random.choice(3, size=self.size, p=self.prior_dist) - 1] (line 129).

    The sampler is NumPy's; the model takes its outcome, one category
    index per cell in buffer order, as the input [draws].  An outcome of
    the categorical distribution [p] over [0, 1, 2] has one index per cell
    and holds no index of probability zero.  Subtracting one turns the
    indices [0, 1, 2] into the cell states [-1, 0, 1].

    The sampler raises [ValueError] when [p] is not a distribution over
    the three categories, and the program then ends on line 129, before
    the loop.  The model begins where the sampler has returned: [run]
    below is the run from an outcome [draws] of the sampling, and what it
    says of a configuration holds of the program when [prior_dist] is one
    the sampler accepts. *)
Definition categorical_sample (p : list float) (sz : nat * nat) (draws : list Z)
  : Prop :=
  length draws = (sz.1 * sz.2)%nat ∧
  Forall (λ k, ∃ q, p !! Z.to_nat k = Some q ∧ 0 ≤ k < 3
                    ∧ (0 <? q)%float = true) draws.

Definition initial_grid (self : SchellingModel) (draws : list Z) : ndarray :=
  NDArray (size self) ((λ k, k - 1) <$> draws).

(** What the loop of [run] holds between two frames: the grid, the frame
    counter, the state of the [random] generator, and the snapshots handed
    to the display so far (the frame number and the grid shown). *)
Record run_state (rng : Type) : Type := RunState {
  grid : ndarray;
  frame : Z;
  gen : rng;
  shown : list (Z * ndarray)
}.

Arguments RunState {rng} grid frame gen shown.
Arguments grid {rng} r.
Arguments frame {rng} r.
Arguments gen {rng} r.
Arguments shown {rng} r.

Section Engine.

(** The [random] module's generator: a state, and [randbelow s n], the
    index drawn for a sequence of length [n] with the generator's next
    state.  Nothing is assumed of it. *)
Variable rng : Type.
Variable randbelow : rng → nat → nat * rng.

(** [random.choice(seq)] *)
Definition random_choice {A : Type} (seq : list A) (s : rng) : result (A * rng) :=
  match seq with
  | [] => Raise IndexError
  | _ =>
      let '(i, s') := randbelow s (length seq) in
      match seq !! i with
      | Some x => Ok (x, s')
      | None => Raise IndexError
      end
  end.

(** The body of the two nested loops, at cell [(i, j)] (lines 145-154). *)
Definition visit (self : SchellingModel) (st : ndarray * rng) (ij : coord)
  : result (ndarray * rng) :=
  let '(grid, s) := st in
  v ← getitem grid ij;
  if decide (v = 0) then Ok st
  else
    move ← similarity grid ij (neighbor_size self) (neighbor_tol self);
    if move : bool then
      '(empty, s') ← random_choice (argwhere_eq grid 0) s;
      v' ← getitem grid ij;
      grid1 ← setitem grid empty v';
      grid2 ← setitem grid1 ij 0;
      Ok (grid2, s')
    else Ok st.

(** [for i in range(h): for j in range(w): ...] (lines 142-154) *)
Definition sweep (self : SchellingModel) (st : ndarray * rng)
  : result (ndarray * rng) :=
  let '(h, w) := size self in
  for_each
    (λ st i, for_each (λ st j, visit self st (i, j)) (range 0 (Z.of_nat w)) st)
    (range 0 (Z.of_nat h)) st.

(** One pass through the body of the [while] loop (lines 134-155). *)
Definition frame_step (self : SchellingModel) (st : run_state rng)
  : result (run_state rng) :=
  r ← py_mod (frame st) (show_every self);
  let shown' :=
    if decide (r = 0) then shown st ++ [(frame st, grid st)] else shown st in
  '(grid', s') ← sweep self (grid st, gen st);
  Ok (RunState grid' (frame st + 1) s' shown').

Lemma frame_step_frame self st st' :
  frame_step self st = Ok st' → frame st' = frame st + 1.
Proof.
  unfold frame_step. destruct (py_mod _ _); [|done]. simpl.
  destruct (sweep _ _) as [[g s]|]; [|done]. simpl. by intros [= <-].
Qed.

(** [while frame < self.max_frame: ...] (lines 133-155) *)
Equations? while_frames (self : SchellingModel) (st : run_state rng)
  : result (run_state rng) by wf (Z.to_nat (max_frame self - frame st)) lt :=
while_frames self st with decide (frame st < max_frame self) => {
  | right _ => Ok st
  | left _ with inspect (frame_step self st) => {
    | exist _ (Ok st') E => while_frames self st'
    | exist _ (Raise e) _ => Raise e
    }
  }.
Proof. apply frame_step_frame in E. lia. Qed.

(** The state on entry to the loop (lines 129-132). *)
Definition initial_state (self : SchellingModel) (draws : list Z) (s : rng)
  : run_state rng :=
  RunState (initial_grid self draws) 0 s [].

(** [SchellingModel.run] (lines 123-155), from the outcome [draws] of the
    sampling on line 129 and the state [s] of the [random] generator. *)
Definition run (self : SchellingModel) (draws : list Z) (s : rng)
  : result (run_state rng) :=
  while_frames self (initial_state self draws s).

End Engine.

Arguments random_choice {rng} randbelow {A} seq s.
Arguments visit {rng} randbelow self st ij.
Arguments sweep {rng} randbelow self st.
Arguments frame_step {rng} randbelow self st.
Arguments while_frames {rng} randbelow self st.
Arguments initial_state {rng} self draws s.
Arguments run {rng} randbelow self draws s.

(** * Part II: the vocabulary of the specification *)

(** Cell states: [0] is Empty, [-1] and [1] are the two occupant types. *)
Definition Empty : Z := 0.
Definition TypeA : Z := -1.
Definition TypeB : Z := 1.

(** The number of cells of a grid in state [v]. *)
Definition population (v : Z) (g : ndarray) : nat := count v (data g).

(** The number of occupied cells. *)
Definition occupants (g : ndarray) : nat :=
  length (filter (λ x, x ≠ Empty) (data g)).

(** Python's ordering of tuples: lexicographic, which on coordinates is
    the row-major order. *)
Definition coord_lt (c d : coord) : Prop :=
  c.1 < d.1 ∨ (c.1 = d.1 ∧ c.2 < d.2).

Definition in_bounds (rows cols : Z) (c : coord) : Prop :=
  0 ≤ c.1 < rows ∧ 0 ≤ c.2 < cols.

(** The [(2r+1) x (2r+1)] square of positions around a centre. *)
Definition in_square (xy : coord) (r : Z) (c : coord) : Prop :=
  xy.1 - r ≤ c.1 ≤ xy.1 + r ∧ xy.2 - r ≤ c.2 ≤ xy.2 + r.

Definition square (xy : coord) (r : Z) : list coord :=
  product (range (xy.1 - r) (xy.1 + r + 1)) (range (xy.2 - r) (xy.2 + r + 1)).

(** The positions of the square that fall outside the grid. *)
Definition clipped (xy : coord) (rows cols r : Z) : nat :=
  length (filter (λ c, ¬ in_bounds rows cols c) (square xy r)).

(** All cells of an [h x w] grid in row-major order:
    [(0,0), (0,1), ..., (0,w-1), (1,0), ...]. *)
Definition row_major (h w : nat) : list coord :=
  product (range 0 (Z.of_nat h)) (range 0 (Z.of_nat w)).

(** The same-type neighbour fraction as the specification words it: the
    neighbours holding the centre's own value, over all neighbours, Empty
    ones included. *)
Definition same_type_neighbors (g : ndarray) (xy : coord) (r : Z) : nat :=
  length (filter (λ c, getitem g c = getitem g xy)
            (find_neighbors xy (Z.of_nat (shape g).1) (Z.of_nat (shape g).2) r)).

Definition total_neighbor_count (g : ndarray) (xy : coord) (r : Z) : nat :=
  length (find_neighbors xy (Z.of_nat (shape g).1) (Z.of_nat (shape g).2) r).

Definition same_fraction (g : ndarray) (xy : coord) (r : Z) : float :=
  (float_of_nat (same_type_neighbors g xy r)
   / float_of_nat (total_neighbor_count g xy r))%float.

(** [n] frame steps in a row from a state, stopping at the first
    exception: the state of a run after its [n]-th frame. *)
Fixpoint step_frames {rng : Type} (randbelow : rng → nat → nat * rng)
    (self : SchellingModel) (n : nat) (st : run_state rng)
  : result (run_state rng) :=
  match n with
  | O => Ok st
  | S n' => st' ← frame_step randbelow self st; step_frames randbelow self n' st'
  end.

(** A relocation: the occupant of [src] moves to [dst], which was Empty,
    and [src] becomes Empty; no other cell of the buffer changes. *)
Definition relocation (g : ndarray) (src dst : coord) (g' : ndarray) : Prop :=
  ∃ (v : Z) (ks kd : nat),
    v ≠ Empty
    ∧ offset g src = Ok ks ∧ offset g dst = Ok kd
    ∧ data g !! ks = Some v ∧ data g !! kd = Some Empty
    ∧ g' = NDArray (shape g) (<[ks := Empty]> (<[kd := v]> (data g))).

(** [g'] holds the cells of [g] in another arrangement: the same shape
    and the same multiset of cell states. *)
Definition rearranged (g g' : ndarray) : Prop :=
  shape g' = shape g ∧ data g' ≡ₚ data g.

(** Two results that match: the same exception, or values related by [P]. *)
Definition result_rel {A B : Type} (P : A → B → Prop)
    (r1 : result A) (r2 : result B) : Prop :=
  match r1, r2 with
  | Ok a, Ok b => P a b
  | Raise e1, Raise e2 => e1 = e2
  | _, _ => False
  end.

(** Two pairs of a value and a generator state that agree on the value. *)
Definition same_pair {A rng1 rng2 : Type} (R : rng1 → rng2 → Prop)
    (p1 : A * rng1) (p2 : A * rng2) : Prop :=
  p1.1 = p2.1 ∧ R p1.2 p2.2.

(** Two states of the loop that agree on everything but the generators,
    whose states are related by [R]. *)
Definition same_state {rng1 rng2 : Type} (R : rng1 → rng2 → Prop)
    (st1 : run_state rng1) (st2 : run_state rng2) : Prop :=
  grid st1 = grid st2 ∧ frame st1 = frame st2
  ∧ shown st1 = shown st2 ∧ R (gen st1) (gen st2).

(** Two outcomes of a run that agree: the same exception, or the same
    grid, frame counter and snapshots. *)
Definition same_outcome {rng1 rng2 : Type} (R : rng1 → rng2 → Prop)
    (r1 : result (run_state rng1)) (r2 : result (run_state rng2)) : Prop :=
  result_rel (same_state R) r1 r2.

(** A generator that keeps a record of the indices it hands out: the
    state is the state of the generator it wraps and the indices drawn so
    far, oldest first. *)
Definition recording {rng : Type} (randbelow : rng → nat → nat * rng)
    (p : rng * list nat) (n : nat) : nat * (rng * list nat) :=
  let '(k, s') := randbelow p.1 n in (k, (s', p.2 ++ [k])).


(** A generator that replays a tape of raw outcomes, each reduced modulo
    the length asked for; an exhausted tape answers [0]. *)
Definition tape_randbelow (s : list nat) (n : nat) : nat * list nat :=
  match s with
  | [] => (O, [])
  | r :: s' => ((r mod n)%nat, s')
  end.

(** The fixture of the specification:
<<
    A A .
    . B A
    B . B
>>
    with [A = -1] and [B = 1]. *)
Definition fixture : ndarray :=
  NDArray (3%nat, 3%nat) [-1; -1; 0; 0; 1; -1; 1; 0; 1].

(** A grid of one occupied cell, which has no neighbour at any radius. *)
Definition lone_cell : ndarray := NDArray (1%nat, 1%nat) [1].

(** A run on the fixture: three frames at radius 1 and tolerance 0.5,
    a snapshot every second frame. *)
Definition demo : SchellingModel := {|
  size := (3%nat, 3%nat);
  neighbor_size := 1;
  neighbor_tol := 0.5;
  prior_dist := [0.25; 0.5; 0.25]%float;
  max_frame := 3;
  show_every := 2
|}.

Definition demo_draws : list Z := [0; 0; 1; 1; 2; 0; 2; 1; 2].

Definition demo_tape : list nat := [5; 4; 3; 2; 1; 0; 7; 8; 9; 10]%nat.

Definition empty_tape : list nat := [].






(** The state of the run on the fixture after its second frame. *)
Definition demo_after_two : run_state (list nat) :=
  RunState (NDArray (3%nat, 3%nat) [1; -1; -1; -1; 1; 1; 0; 0; 0]) 2 []
    [(0, fixture)].

(** A row whose only occupant of type [A] has an Empty cell to its right. *)
Definition corridor : ndarray := NDArray (1%nat, 4%nat) [-1; 0; 1; 1].

Definition corridor_model : SchellingModel := {|
  size := (1%nat, 4%nat);
  neighbor_size := 1;
  neighbor_tol := 0.5;
  prior_dist := [0.25; 0.25; 0.5]%float;
  max_frame := 1;
  show_every := 1
|}.

(** A full grid: two cells, one occupant of each type, no Empty cell. *)
Definition crowded : SchellingModel := {|
  size := (1%nat, 2%nat);
  neighbor_size := 1;
  neighbor_tol := 0.5;
  prior_dist := [0.5; 0; 0.5]%float;
  max_frame := 1;
  show_every := 1
|}.

Definition crowded_draws : list Z := [0; 2].

(** All the probability on the first entry of [prior_dist]. *)
Definition first_certain : SchellingModel := {|
  size := (2%nat, 2%nat);
  neighbor_size := 1;
  neighbor_tol := 0.5;
  prior_dist := [1; 0; 0]%float;
  max_frame := 2;
  show_every := 1
|}.

(** All the probability on the second entry of [prior_dist]. *)
Definition second_certain : SchellingModel := {|
  size := (2%nat, 3%nat);
  neighbor_size := 1;
  neighbor_tol := 0.5;
  prior_dist := [0; 1; 0]%float;
  max_frame := 4;
  show_every := 3
|}.

(** A [prior_dist] that NumPy's sampler accepts: three entries, none of
    them negative (hence none a NaN), with a sum within [2^-27] of one.
    NumPy rejects [p] unless it has one entry per category, none negative
    or NaN, and a compensated sum within [sqrt(eps) = 2^-26] of one; the
    plain sum of three such entries differs from the compensated one by
    a few units in the last place, so the bound here is inside NumPy's. *)
Definition accepted_prior (p : list float) : Prop :=
  ∃ a b c : float,
    p = [a; b; c]
    ∧ (0 <=? a)%float = true ∧ (0 <=? b)%float = true
    ∧ (0 <=? c)%float = true
    ∧ (abs (a + b + c - 1) <=? 0x1p-27)%float = true.

(** Two configurations on the fixture's grid with [show_every = 0]: one
    with no frame to run, one with two. *)
Definition no_frame : SchellingModel := {|
  size := (3%nat, 3%nat);
  neighbor_size := 1;
  neighbor_tol := 0.5;
  prior_dist := [0.25; 0.5; 0.25]%float;
  max_frame := 0;
  show_every := 0
|}.

Definition never_shown : SchellingModel := {|
  size := (3%nat, 3%nat);
  neighbor_size := 1;
  neighbor_tol := 0.5;
  prior_dist := [0.25; 0.5; 0.25]%float;
  max_frame := 2;
  show_every := 0
|}.

(** A cell state the program can hold. *)
Definition valid_state (v : Z) : Prop := v = TypeA ∨ v = Empty ∨ v = TypeB.

(** Every cell of the grid is Empty or need not move. *)
Definition settled (self : SchellingModel) (g : ndarray) : Prop :=
  ∀ c, in_bounds (Z.of_nat (size self).1) (Z.of_nat (size self).2) c →
    getitem g c = Ok Empty
    ∨ similarity g c (neighbor_size self) (neighbor_tol self) = Ok false.

(** The grid, and the initial sample, with the two occupant types
    exchanged. *)
Definition swap_types (g : ndarray) : ndarray :=
  NDArray (shape g) (Z.opp <$> data g).

Definition swap_draws (draws : list Z) : list Z := (λ k, 2 - k) <$> draws.

Definition swapped_pair {rng : Type} (p1 p2 : ndarray * rng) : Prop :=
  p2.1 = swap_types p1.1 ∧ p2.2 = p1.2.

(** Two states of the loop that differ by the exchange of the two types. *)
Definition swapped_state {rng : Type} (st1 st2 : run_state rng) : Prop :=
  grid st2 = swap_types (grid st1) ∧ frame st2 = frame st1
  ∧ gen st2 = gen st1
  ∧ shown st2 = prod_map id swap_types <$> shown st1.

(** The state in which the run on the fixture returns. *)
Definition demo_final : run_state (list nat) :=
  RunState (NDArray (3%nat, 3%nat) [-1; -1; -1; 1; 1; 0; 1; 0; 0]) 3 []
    [(0, fixture); (2, grid demo_after_two)].

(** The corridor after the visit of its first cell. *)
Definition corridor_moved : ndarray := NDArray (1%nat, 4%nat) [0; -1; 1; 1].

(** A row of two pairs, in which every occupant has a like neighbour. *)
Definition settled_row : ndarray := NDArray (1%nat, 4%nat) [-1; -1; 1; 1].

Definition settled_model : SchellingModel := {|
  size := (1%nat, 4%nat);
  neighbor_size := 1;
  neighbor_tol := 0.5;
  prior_dist := [0.5; 0; 0.5]%float;
  max_frame := 5;
  show_every := 2
|}.

(** * Part III: lemmas and theorems *)

(** ** Lists, ranges and products *)

Section ListFacts.
Context {A : Type}.
Implicit Types (l : list A) (P Q : A → Prop).

Lemma length_filter_complement P `{∀ x, Decision (P x)} l :
  (length (filter P l) + length (filter (λ x, ¬ P x) l) = length l)%nat.
Proof. by rewrite <- length_app, filter_app_complement. Qed.

Lemma length_filter_or P Q `{∀ x, Decision (P x)} `{∀ x, Decision (Q x)} l :
  (∀ x, x ∈ l → P x → Q x → False) →
  length (filter (λ x, P x ∨ Q x) l)
  = (length (filter P l) + length (filter Q l))%nat.
Proof.
  induction l as [|a l IH]; intros Hdisj; [done|].
  rewrite !filter_cons.
  assert (Hl : ∀ x, x ∈ l → P x → Q x → False)
    by (intros x Hx; apply Hdisj; by right).
  specialize (IH Hl).
  assert (Ha : P a → Q a → False) by (apply Hdisj; by left).
  repeat case_decide; simpl; try lia; tauto.
Qed.

Lemma length_filter_ext P Q `{∀ x, Decision (P x)} `{∀ x, Decision (Q x)} l :
  (∀ x, x ∈ l → P x ↔ Q x) → length (filter P l) = length (filter Q l).
Proof.
  induction l as [|a l IH]; intros Hext; [done|].
  rewrite !filter_cons.
  assert (Ha : P a ↔ Q a) by (apply Hext; by left).
  assert (IH' : length (filter P l) = length (filter Q l))
    by (apply IH; intros x Hx; apply Hext; by right).
  repeat case_decide; simpl; try lia; tauto.
Qed.

Lemma length_filter_eq_NoDup `{EqDecision A} l (a : A) :
  NoDup l → a ∈ l → length (filter (λ x, x = a) l) = 1%nat.
Proof.
  induction 1 as [|b l Hb Hl IH]; intros Ha; [by apply elem_of_nil in Ha|].
  rewrite filter_cons. case_decide as Hba.
  - subst b. simpl. f_equal.
    destruct (filter (λ x, x = a) l) as [|c k] eqn:E; [done|].
    assert (Hc : c ∈ filter (λ x, x = a) l) by (rewrite E; by left).
    apply list_elem_of_filter in Hc as [-> Hc]. done.
  - apply IH. apply elem_of_cons in Ha as [->|Ha]; done.
Qed.

Lemma StronglySorted_filter (R : relation A) P `{∀ x, Decision (P x)} l :
  StronglySorted R l → StronglySorted R (filter P l).
Proof.
  induction 1 as [|a l Hl IH Ha]; [constructor|].
  rewrite filter_cons. case_decide; [|done].
  constructor; [done|].
  apply Forall_forall. intros x [_ Hx]%list_elem_of_filter.
  by eapply Forall_forall in Ha.
Qed.

Lemma StronglySorted_NoDup (R : relation A) l :
  (∀ x, ¬ R x x) → StronglySorted R l → NoDup l.
Proof.
  intros Hirr. induction 1 as [|a l Hl IH Ha]; constructor; [|done].
  intros Hin. eapply Forall_forall in Ha; [|done]. by eapply Hirr.
Qed.

End ListFacts.

Lemma elem_of_range (a b k : Z) : k ∈ range a b ↔ a ≤ k < b.
Proof. unfold range. rewrite elem_of_seqZ. lia. Qed.

Lemma length_range (a b : Z) : length (range a b) = Z.to_nat (b - a).
Proof. apply length_seqZ. Qed.

Lemma range_sorted (a b : Z) : StronglySorted Z.lt (range a b).
Proof.
  unfold range, seqZ.
  apply (StronglySorted_fmap _ lt); [intros; lia|].
  generalize (Z.to_nat (b - a)) O. intros n. induction n as [|n IH]; intros m.
  - constructor.
  - simpl. constructor; [apply IH|].
    apply Forall_forall. intros x Hx%elem_of_seq. lia.
Qed.

Lemma elem_of_product (xs ys : list Z) (c : coord) :
  c ∈ product xs ys ↔ c.1 ∈ xs ∧ c.2 ∈ ys.
Proof.
  unfold product. rewrite list_elem_of_bind. split.
  - intros (x & Hc & Hx). apply list_elem_of_bind in Hc as (y & Hc & Hy).
    apply list_elem_of_singleton in Hc as ->. done.
  - intros [Hx Hy]. exists c.1. split; [|done].
    apply list_elem_of_bind. exists c.2. split; [|done].
    destruct c. by apply list_elem_of_singleton.
Qed.

Lemma product_cons (x : Z) (xs ys : list Z) :
  product (x :: xs) ys = (pair x <$> ys) ++ product xs ys.
Proof.
  unfold product. rewrite bind_cons. f_equal.
Qed.

Lemma length_product (xs ys : list Z) :
  length (product xs ys) = (length xs * length ys)%nat.
Proof.
  induction xs as [|x xs IH]; [done|].
  rewrite product_cons, length_app, length_fmap, IH. done.
Qed.

Lemma product_sorted (xs ys : list Z) :
  StronglySorted Z.lt xs → StronglySorted Z.lt ys →
  StronglySorted coord_lt (product xs ys).
Proof.
  intros Hxs Hys. induction Hxs as [|x xs Hxs IH Hx]; [constructor|].
  rewrite product_cons. apply StronglySorted_app_2; [| |done].
  - intros c d (y & -> & _)%list_elem_of_fmap [Hd _]%elem_of_product.
    left. simpl. by eapply Forall_forall in Hx.
  - apply (StronglySorted_fmap _ Z.lt); [|done].
    intros y1 y2 Hlt. right. done.
Qed.

Lemma coord_lt_irrefl (c : coord) : ¬ coord_lt c c.
Proof. unfold coord_lt. lia. Qed.

Lemma coord_lt_trans (c d e : coord) : coord_lt c d → coord_lt d e → coord_lt c e.
Proof. unfold coord_lt. lia. Qed.

(** ** [find_neighbors] *)

Lemma elem_of_square (xy : coord) (r : Z) (c : coord) :
  c ∈ square xy r ↔ in_square xy r c.
Proof.
  unfold square, in_square. rewrite elem_of_product, !elem_of_range. lia.
Qed.

Lemma square_sorted (xy : coord) (r : Z) : StronglySorted coord_lt (square xy r).
Proof. apply product_sorted; apply range_sorted. Qed.

Lemma length_square (xy : coord) (r : Z) :
  0 ≤ r → Z.of_nat (length (square xy r)) = (2 * r + 1) ^ 2.
Proof.
  intros Hr. unfold square. rewrite length_product, !length_range. nia.
Qed.

Lemma find_neighbors_square (xy : coord) (rows cols r : Z) :
  find_neighbors xy rows cols r
  = filter (λ c, c ≠ xy ∧ in_bounds rows cols c) (square xy r).
Proof. reflexivity. Qed.

Lemma elem_of_find_neighbors (xy : coord) (rows cols r : Z) (c : coord) :
  c ∈ find_neighbors xy rows cols r
  ↔ in_square xy r c ∧ c ≠ xy ∧ in_bounds rows cols c.
Proof.
  rewrite find_neighbors_square, list_elem_of_filter, elem_of_square. tauto.
Qed.

Lemma find_neighbors_sorted (xy : coord) (rows cols r : Z) :
  StronglySorted coord_lt (find_neighbors xy rows cols r).
Proof.
  rewrite find_neighbors_square. apply StronglySorted_filter, square_sorted.
Qed.

Lemma find_neighbors_NoDup (xy : coord) (rows cols r : Z) :
  NoDup (find_neighbors xy rows cols r).
Proof.
  eapply StronglySorted_NoDup; [apply coord_lt_irrefl|].
  apply find_neighbors_sorted.
Qed.

Lemma find_neighbors_radius_0 (xy : coord) (rows cols : Z) :
  find_neighbors xy rows cols 0 = [].
Proof.
  destruct (find_neighbors xy rows cols 0) as [|c l] eqn:E; [done|].
  assert (Hc : c ∈ find_neighbors xy rows cols 0) by (rewrite E; by left).
  apply elem_of_find_neighbors in Hc as (Hsq & Hne & _).
  destruct Hne. unfold in_square in Hsq. destruct c, xy; simpl in *.
  f_equal; lia.
Qed.

Lemma length_find_neighbors (xy : coord) (rows cols r : Z) :
  in_bounds rows cols xy → 0 ≤ r →
  Z.of_nat (length (find_neighbors xy rows cols r))
  = ((2 * r + 1) ^ 2) - 1 - Z.of_nat (clipped xy rows cols r).
Proof.
  intros Hxy Hr. rewrite <- (length_square xy r Hr).
  rewrite find_neighbors_square. unfold clipped.
  pose proof (length_filter_complement
                (λ c, c ≠ xy ∧ in_bounds rows cols c) (square xy r)) as Hsplit.
  assert (Hcompl :
    length (filter (λ c, ¬ (c ≠ xy ∧ in_bounds rows cols c)) (square xy r))
    = (length (filter (λ c, c = xy) (square xy r))
       + length (filter (λ c, ¬ in_bounds rows cols c) (square xy r)))%nat).
  { rewrite <- length_filter_or by (intros c _ -> Hout; by apply Hout).
    apply length_filter_ext. intros c _.
    destruct (decide (c = xy)); tauto. }
  assert (Hcentre : length (filter (λ c, c = xy) (square xy r)) = 1%nat).
  { apply length_filter_eq_NoDup.
    - eapply StronglySorted_NoDup; [apply coord_lt_irrefl|apply square_sorted].
    - apply elem_of_square. unfold in_square. lia. }
  lia.
Qed.

(** The cells of the square that the grid keeps: its rows in the grid
    times its columns in the grid. *)
Lemma length_visible (xy : coord) (rows cols r : Z) :
  length (filter (in_bounds rows cols) (square xy r))
  = (Z.to_nat (Z.min (xy.1 + r + 1) rows - Z.max (xy.1 - r) 0)
     * Z.to_nat (Z.min (xy.2 + r + 1) cols - Z.max (xy.2 - r) 0))%nat.
Proof.
  rewrite <- !length_range, <- length_product.
  apply Permutation_length, NoDup_Permutation.
  - apply NoDup_filter.
    eapply StronglySorted_NoDup; [apply coord_lt_irrefl|apply square_sorted].
  - eapply StronglySorted_NoDup; [apply coord_lt_irrefl|].
    apply product_sorted; apply range_sorted.
  - intros c. rewrite list_elem_of_filter, elem_of_square, elem_of_product,
      !elem_of_range.
    unfold in_bounds, in_square. lia.
Qed.

(** X1. Around an in-bounds centre, the number of neighbours is the number
    of rows of the window that the grid keeps times the number of columns
    it keeps, less one for the centre. *)
Lemma length_find_neighbors_closed_form (xy : coord) (rows cols r : Z) :
  in_bounds rows cols xy → 0 ≤ r →
  Z.of_nat (length (find_neighbors xy rows cols r))
  = (Z.min (xy.1 + r) (rows - 1) - Z.max (xy.1 - r) 0 + 1)
    * (Z.min (xy.2 + r) (cols - 1) - Z.max (xy.2 - r) 0 + 1) - 1.
Proof.
  intros Hxy Hr.
  pose proof (length_find_neighbors xy rows cols r Hxy Hr) as Hn.
  pose proof (length_square xy r Hr) as Hsq.
  pose proof (length_filter_complement (in_bounds rows cols) (square xy r)) as Hc.
  pose proof (length_visible xy rows cols r) as Hv.
  unfold clipped in Hn. unfold in_bounds in Hxy. nia.
Qed.

Lemma length_find_neighbors_closed_form_witness :
  Z.of_nat (length (find_neighbors (0, 1) 3 5 2))
  = (Z.min (0 + 2) (3 - 1) - Z.max (0 - 2) 0 + 1)
    * (Z.min (1 + 2) (5 - 1) - Z.max (1 - 2) 0 + 1) - 1.
Proof.
  apply (length_find_neighbors_closed_form (0, 1) 3 5 2);
    unfold in_bounds; simpl; lia.
Defined.

(** C6. On a grid with at least one row and one column, around an
    in-bounds centre and for a radius of at least one, [find_neighbors]
    yields exactly the in-bounds coordinates of the [(2r+1) x (2r+1)]
    square around the centre other than the centre, each once: the centre
    is never yielded, no out-of-bounds coordinate is, and the number of
    coordinates yielded is [(2r+1)^2 - 1] minus the number of positions of
    the square clipped for lying outside the grid. *)
Theorem find_neighbors_exact (rows cols x y r : Z) :
  1 ≤ rows → 1 ≤ cols → in_bounds rows cols (x, y) → 1 ≤ r →
  let nb := find_neighbors (x, y) rows cols r in
  (∀ c, c ∈ nb ↔ in_square (x, y) r c ∧ c ≠ (x, y) ∧ in_bounds rows cols c)
  ∧ NoDup nb
  ∧ ((x, y) ∉ nb)
  ∧ Forall (in_bounds rows cols) nb
  ∧ Z.of_nat (length nb)
    = ((2 * r + 1) ^ 2) - 1 - Z.of_nat (clipped (x, y) rows cols r).
Proof.
  intros _ _ Hxy Hr nb. subst nb. split_and!.
  - apply elem_of_find_neighbors.
  - apply find_neighbors_NoDup.
  - rewrite elem_of_find_neighbors. tauto.
  - apply Forall_forall. intros c Hc%elem_of_find_neighbors. tauto.
  - apply length_find_neighbors; [done|lia].
Qed.

Lemma find_neighbors_exact_witness :
  let nb := find_neighbors (0, 1) 3 3 1 in
  (∀ c, c ∈ nb ↔ in_square (0, 1) 1 c ∧ c ≠ (0, 1) ∧ in_bounds 3 3 c)
  ∧ NoDup nb
  ∧ ((0, 1) ∉ nb)
  ∧ Forall (in_bounds 3 3) nb
  ∧ Z.of_nat (length nb)
    = ((2 * 1 + 1) ^ 2) - 1 - Z.of_nat (clipped (0, 1) 3 3 1).
Proof.
  apply (find_neighbors_exact 3 3 0 1 1); unfold in_bounds; simpl; lia.
Defined.

(** C10. On a grid with at least one row and one column, around an
    in-bounds centre and for a radius of at least zero, the coordinates
    [find_neighbors] yields are strictly increasing in the lexicographic
    (row-major) order, hence without duplicates; the sequence is a function
    of the arguments alone; and radius zero yields the empty sequence. *)
Theorem find_neighbors_increasing (rows cols x y r : Z) :
  1 ≤ rows → 1 ≤ cols → in_bounds rows cols (x, y) → 0 ≤ r →
  StronglySorted coord_lt (find_neighbors (x, y) rows cols r)
  ∧ NoDup (find_neighbors (x, y) rows cols r)
  ∧ (r = 0 → find_neighbors (x, y) rows cols r = []).
Proof.
  intros _ _ _ _. split_and!.
  - apply find_neighbors_sorted.
  - apply find_neighbors_NoDup.
  - intros ->. apply find_neighbors_radius_0.
Qed.

Lemma find_neighbors_increasing_witness :
  StronglySorted coord_lt (find_neighbors (1, 1) 3 3 0)
  ∧ NoDup (find_neighbors (1, 1) 3 3 0)
  ∧ (0 = 0 → find_neighbors (1, 1) 3 3 0 = []).
Proof.
  apply (find_neighbors_increasing 3 3 1 1 0); unfold in_bounds; simpl; lia.
Defined.

(** ** The result monad *)

Lemma bind_Ok {A B : Type} (m : result A) (f : A → result B) (b : B) :
  m ≫= f = Ok b ↔ ∃ a, m = Ok a ∧ f a = Ok b.
Proof.
  destruct m as [a|e]; simpl; split.
  - eauto.
  - by intros (? & [= <-] & ?).
  - done.
  - by intros (? & ? & ?).
Qed.

Lemma bind_Ok_l {A B : Type} (a : A) (f : A → result B) : Ok a ≫= f = f a.
Proof. reflexivity. Qed.

Lemma for_each_cons {S A : Type} (body : S → A → result S) (x : A) (xs : list A)
    (st : S) :
  for_each body (x :: xs) st = body st x ≫= for_each body xs.
Proof. reflexivity. Qed.

Lemma for_each_app {S A : Type} (body : S → A → result S) (xs ys : list A) (st : S) :
  for_each body (xs ++ ys) st = for_each body xs st ≫= for_each body ys.
Proof.
  revert st. induction xs as [|x xs IH]; intros st; [done|].
  simpl. destruct (body st x) as [st'|e]; simpl; [apply IH|done].
Qed.

Lemma for_each_invariant {S A : Type} (I : S → Prop) (body : S → A → result S)
    (xs : list A) (st st' : S) :
  (∀ s x s', x ∈ xs → I s → body s x = Ok s' → I s') →
  I st → for_each body xs st = Ok st' → I st'.
Proof.
  revert st. induction xs as [|x xs IH]; intros st Hbody Hst; simpl.
  - by intros [= <-].
  - intros (st1 & H1 & H2)%bind_Ok. eapply IH; [|..|exact H2].
    + intros s y s' Hy. apply Hbody. by right.
    + eapply Hbody; [by left|done..].
Qed.

Lemma list_comp_Ok {A B : Type} (f : A → result B) (xs : list A) :
  Forall (λ x, ∃ y, f x = Ok y) xs →
  ∃ ys, list_comp f xs = Ok ys ∧ Forall2 (λ x y, f x = Ok y) xs ys.
Proof.
  induction 1 as [|x xs [y Hy] _ (ys & Hys & IH)]; simpl.
  - exists []. by split; [|constructor].
  - exists (y :: ys). rewrite Hy, Hys. simpl. by split; [|constructor].
Qed.

(** ** Arrays *)

Lemma axis_index_in_range (k : Z) (n : nat) :
  0 ≤ k < Z.of_nat n → axis_index k n = Ok (Z.to_nat k).
Proof. intros Hk. unfold axis_index. by rewrite decide_True. Qed.

Lemma axis_index_lt (k : Z) (n i : nat) :
  axis_index k n = Ok i → (i < n)%nat.
Proof.
  unfold axis_index. repeat case_decide; intros [= <-]; lia.
Qed.

Lemma offset_in_bounds (a : ndarray) (c : coord) :
  in_bounds (Z.of_nat (shape a).1) (Z.of_nat (shape a).2) c →
  offset a c = Ok (Z.to_nat c.1 * (shape a).2 + Z.to_nat c.2)%nat.
Proof.
  intros [H1 H2]. unfold offset.
  by rewrite !axis_index_in_range.
Qed.

Lemma offset_lt (a : ndarray) (c : coord) (k : nat) :
  offset a c = Ok k → (k < (shape a).1 * (shape a).2)%nat.
Proof.
  unfold offset. intros (i & Hi & (j & Hj & [= <-])%bind_Ok)%bind_Ok.
  apply axis_index_lt in Hi, Hj. nia.
Qed.

Lemma offset_inj (a : ndarray) (c d : coord) :
  in_bounds (Z.of_nat (shape a).1) (Z.of_nat (shape a).2) c →
  in_bounds (Z.of_nat (shape a).1) (Z.of_nat (shape a).2) d →
  offset a c = offset a d → c = d.
Proof.
  intros Hc Hd. rewrite !offset_in_bounds by done.
  destruct Hc, Hd, c as [c1 c2], d as [d1 d2]; simpl in *.
  intros [= Heq].
  assert (Z.to_nat c1 = Z.to_nat d1) by nia.
  f_equal; nia.
Qed.

Lemma getitem_in_bounds (a : ndarray) (c : coord) :
  wf_array a →
  in_bounds (Z.of_nat (shape a).1) (Z.of_nat (shape a).2) c →
  ∃ v, getitem a c = Ok v.
Proof.
  intros Hwf Hc. unfold getitem. rewrite offset_in_bounds by done. simpl.
  destruct (data a !! _) as [v|] eqn:E; [by eexists|].
  apply lookup_ge_None in E. unfold wf_array, in_bounds in *.
  destruct c as [i j]; simpl in *. nia.
Qed.

Lemma getitem_Ok (a : ndarray) (c : coord) (v : Z) :
  getitem a c = Ok v ↔ ∃ k, offset a c = Ok k ∧ data a !! k = Some v.
Proof.
  unfold getitem. rewrite bind_Ok. split; intros (k & Hk & H); exists k.
  - split; [done|]. destruct (data a !! k); congruence.
  - by rewrite H.
Qed.

Lemma getitem_elem_of (a : ndarray) (c : coord) (v : Z) :
  getitem a c = Ok v → v ∈ data a.
Proof.
  intros (k & _ & Hk)%getitem_Ok. by eapply list_elem_of_lookup_2.
Qed.

Lemma setitem_Ok (a : ndarray) (c : coord) (v : Z) (k : nat) :
  offset a c = Ok k →
  setitem a c v = Ok (NDArray (shape a) (<[k := v]> (data a))).
Proof. intros H. unfold setitem. by rewrite H. Qed.

Lemma offset_shape (a b : ndarray) (c : coord) :
  shape a = shape b → offset a c = offset b c.
Proof. intros H. unfold offset. by rewrite H. Qed.

Lemma elem_of_row_major (h w : nat) (c : coord) :
  c ∈ row_major h w ↔ in_bounds (Z.of_nat h) (Z.of_nat w) c.
Proof.
  unfold row_major, in_bounds. rewrite elem_of_product, !elem_of_range. lia.
Qed.

Lemma row_major_sorted (h w : nat) : StronglySorted coord_lt (row_major h w).
Proof. apply product_sorted; apply range_sorted. Qed.

Lemma elem_of_argwhere_eq (a : ndarray) (v : Z) (c : coord) :
  c ∈ argwhere_eq a v
  ↔ in_bounds (Z.of_nat (shape a).1) (Z.of_nat (shape a).2) c ∧ getitem a c = Ok v.
Proof.
  unfold argwhere_eq. rewrite list_elem_of_filter.
  fold (row_major (shape a).1 (shape a).2). rewrite elem_of_row_major. tauto.
Qed.

Lemma argwhere_eq_sorted (a : ndarray) (v : Z) :
  StronglySorted coord_lt (argwhere_eq a v).
Proof. apply StronglySorted_filter, row_major_sorted. Qed.

Lemma argwhere_eq_NoDup (a : ndarray) (v : Z) : NoDup (argwhere_eq a v).
Proof.
  eapply StronglySorted_NoDup; [apply coord_lt_irrefl|apply argwhere_eq_sorted].
Qed.

(** ** [similarity] *)

Lemma float_eqb_not_ltb (x y : float) :
  (x =? y)%float = true → (x <? y)%float = false.
Proof.
  rewrite FloatAxioms.eqb_spec, FloatAxioms.ltb_spec.
  unfold SFeqb, SFltb. by destruct (SFcompare _ _) as [[]|].
Qed.

Lemma count_neighborhood (g : ndarray) (own : Z) (cs : list coord) (vs : list Z) :
  Forall2 (λ c v, getitem g c = Ok v) cs vs →
  count own vs = length (filter (λ c, getitem g c = Ok own) cs).
Proof.
  unfold count. induction 1 as [|c v cs vs Hc _ IH]; [done|].
  rewrite !filter_cons, Hc.
  repeat case_decide; simpl; rewrite ?IH; congruence.
Qed.

(** What [similarity] computes at an in-bounds cell of a well-formed grid,
    in the words of the specification. *)
Lemma similarity_unfold (g : ndarray) (xy : coord) (r : Z) (tol : float) :
  wf_array g →
  in_bounds (Z.of_nat (shape g).1) (Z.of_nat (shape g).2) xy →
  similarity g xy r tol =
    match total_neighbor_count g xy r with
    | O => Raise ZeroDivisionError
    | _ => Ok (same_fraction g xy r <? tol)%float
    end.
Proof.
  intros Hwf Hxy.
  unfold similarity, same_fraction, same_type_neighbors, total_neighbor_count.
  destruct (shape g) as [m n] eqn:Hshape; simpl in *.
  set (nb := find_neighbors xy (Z.of_nat m) (Z.of_nat n) r).
  destruct (list_comp_Ok (getitem g) nb) as (vs & -> & Hvs).
  { apply Forall_forall. intros c Hc%elem_of_find_neighbors.
    apply getitem_in_bounds; [done|]. rewrite Hshape. tauto. }
  destruct (getitem_in_bounds g xy) as [own Hown]; [done|by rewrite Hshape|].
  rewrite Hown. simpl.
  rewrite (count_neighborhood g own nb vs Hvs).
  rewrite <- (Forall2_length _ _ _ Hvs).
  unfold py_truediv. destruct (length nb); simpl; [done|].
  by destruct (_ <? _)%float.
Qed.

(** C2. For every well-formed grid, every occupied in-bounds coordinate
    whose neighbourhood is not empty, every radius of at least one and
    every tolerance, [similarity] returns a boolean, and it is [true]
    exactly when the number of same-type neighbours divided by the length
    of the whole neighbourhood (Empty neighbours counted in the
    denominator) is strictly below the tolerance; when the fraction equals
    the tolerance it is [false]. *)
Theorem similarity_strict_threshold (g : ndarray) (xy : coord) (r : Z) (tol : float) :
  wf_array g →
  in_bounds (Z.of_nat (shape g).1) (Z.of_nat (shape g).2) xy →
  (∃ v, getitem g xy = Ok v ∧ v ≠ Empty) →
  total_neighbor_count g xy r ≠ O →
  1 ≤ r →
  ∃ b : bool,
    similarity g xy r tol = Ok b
    ∧ (b = true ↔ (same_fraction g xy r <? tol)%float = true)
    ∧ ((same_fraction g xy r =? tol)%float = true → b = false).
Proof.
  intros Hwf Hxy _ Hnb _.
  exists (same_fraction g xy r <? tol)%float. split_and!.
  - rewrite similarity_unfold by done.
    by destruct (total_neighbor_count g xy r).
  - done.
  - apply float_eqb_not_ltb.
Qed.

Lemma similarity_strict_threshold_witness :
  ∃ b : bool,
    similarity fixture (1, 1) 1 0.25 = Ok b
    ∧ (b = true ↔ PrimFloat.ltb (same_fraction fixture (1, 1) 1) 0.25 = true)
    ∧ (PrimFloat.eqb (same_fraction fixture (1, 1) 1) 0.25 = true → b = false).
Proof.
  apply (similarity_strict_threshold fixture (1, 1) 1 0.25).
  - reflexivity.
  - unfold in_bounds. simpl. lia.
  - exists 1. split; [reflexivity|discriminate].
  - vm_compute. discriminate.
  - lia.
Defined.

(** The fixture of the specification, worked out: the centre cell holds a
    [B]; of its eight neighbours [A, A, ., ., A, B, ., B] two are a [B];
    the fraction over all eight is [2/8]; at tolerance [0.5] the occupant
    must move, at tolerance [0.25] (the boundary) it stays. *)
Example fixture_neighbors :
  same_type_neighbors fixture (1, 1) 1 = 2%nat
  ∧ total_neighbor_count fixture (1, 1) 1 = 8%nat
  ∧ same_fraction fixture (1, 1) 1 = 0.25%float.
Proof. vm_compute. by split_and!. Qed.

Example fixture_moves : similarity fixture (1, 1) 1 0.5 = Ok true.
Proof. by vm_compute. Qed.

Example fixture_boundary_stays : similarity fixture (1, 1) 1 0.25 = Ok false.
Proof. by vm_compute. Qed.

(** C4, as the specification states it, fails: with an empty
    neighbourhood the outcome is the division's own [ZeroDivisionError];
    [similarity] has no guard before the division. *)
Lemma similarity_empty_neighborhood_unguarded :
  total_neighbor_count lone_cell (0, 0) 1 = O
  ∧ similarity lone_cell (0, 0) 1 0.5 = Raise ZeroDivisionError.
Proof. vm_compute. by split. Qed.

(** C4, amended. At an in-bounds cell of a well-formed grid whose
    neighbourhood is empty, [similarity] raises [ZeroDivisionError],
    whatever the radius and the tolerance: it returns no boolean, and the
    error is the unguarded division's. *)
Theorem similarity_empty_neighborhood (g : ndarray) (xy : coord) (r : Z) (tol : float) :
  wf_array g →
  in_bounds (Z.of_nat (shape g).1) (Z.of_nat (shape g).2) xy →
  total_neighbor_count g xy r = O →
  similarity g xy r tol = Raise ZeroDivisionError.
Proof.
  intros Hwf Hxy Hnb. rewrite similarity_unfold by done. by rewrite Hnb.
Qed.

Lemma similarity_empty_neighborhood_witness :
  similarity lone_cell (0, 0) 3 0.5 = Raise ZeroDivisionError.
Proof.
  apply (similarity_empty_neighborhood lone_cell (0, 0) 3 0.5).
  - reflexivity.
  - unfold in_bounds. simpl. lia.
  - reflexivity.
Defined.

(** ** The engine *)

Section EngineFacts.
Context {rng : Type} (randbelow : rng → nat → nat * rng).
Implicit Types (self : SchellingModel) (g : ndarray) (s : rng) (ij : coord).

Lemma random_choice_nil {A : Type} s :
  random_choice randbelow (@nil A) s = Raise IndexError.
Proof. done. Qed.

Lemma random_choice_Ok {A : Type} (seq : list A) s (x : A) s' :
  random_choice randbelow seq s = Ok (x, s')
  ↔ seq ≠ [] ∧ ∃ k, randbelow s (length seq) = (k, s') ∧ seq !! k = Some x.
Proof.
  unfold random_choice. destruct seq as [|a seq]; [by split; [|intros [? _]]|].
  destruct (randbelow s (length (a :: seq))) as [k s1].
  destruct ((a :: seq) !! k) as [y|] eqn:E; split.
  - intros [= -> ->]. split; [done|]. by exists k.
  - intros (_ & k' & [= <- <-] & Hk). congruence.
  - done.
  - intros (_ & k' & [= <- <-] & Hk). by rewrite E in Hk.
Qed.

Lemma relocation_shape g src dst g' :
  relocation g src dst g' → shape g' = shape g.
Proof. by intros (v & ks & kd & _ & _ & _ & _ & _ & ->). Qed.

Lemma relocation_Permutation g src dst g' :
  relocation g src dst g' → data g' ≡ₚ data g.
Proof.
  intros (v & ks & kd & _ & _ & _ & Hs & Hd & ->). simpl.
  by apply Permutation_insert_swap.
Qed.

Lemma relocation_cells g src dst g' :
  relocation g src dst g' →
  ∃ v, v ≠ Empty
    ∧ getitem g src = Ok v ∧ getitem g dst = Ok Empty
    ∧ getitem g' src = Ok Empty ∧ getitem g' dst = Ok v.
Proof.
  intros (v & ks & kd & Hv & Hks & Hkd & Hs & Hd & ->).
  assert (ks ≠ kd) by (intros ->; congruence).
  exists v. split_and!; [done|..]; apply getitem_Ok.
  - by exists ks.
  - by exists kd.
  - exists ks. split; [done|]. simpl.
    apply list_lookup_insert_eq. rewrite length_insert.
    by eapply lookup_lt_Some.
  - exists kd. split; [done|]. simpl.
    rewrite list_lookup_insert_ne by done.
    apply list_lookup_insert_eq. by eapply lookup_lt_Some.
Qed.

(** The three ways through the loop body. *)
Lemma visit_empty self g s ij :
  getitem g ij = Ok Empty → visit randbelow self (g, s) ij = Ok (g, s).
Proof. intros H. unfold visit. rewrite H. done. Qed.

Lemma visit_stay self g s ij v :
  getitem g ij = Ok v → v ≠ Empty →
  similarity g ij (neighbor_size self) (neighbor_tol self) = Ok false →
  visit randbelow self (g, s) ij = Ok (g, s).
Proof.
  intros H Hv Hsim. unfold visit. rewrite H. simpl.
  rewrite decide_False by done. by rewrite Hsim.
Qed.

Lemma visit_move self g s ij v :
  getitem g ij = Ok v → v ≠ Empty →
  similarity g ij (neighbor_size self) (neighbor_tol self) = Ok true →
  visit randbelow self (g, s) ij =
    '(dst, s') ← random_choice randbelow (argwhere_eq g Empty) s;
    g1 ← setitem g dst v;
    g2 ← setitem g1 ij Empty;
    Ok (g2, s').
Proof.
  intros H Hv Hsim. unfold visit. rewrite H. simpl.
  rewrite decide_False by done. rewrite Hsim. simpl.
  by destruct (random_choice _ _ _) as [[dst s']|].
Qed.

Lemma visit_move_relocation self g s ij v dst s' :
  getitem g ij = Ok v → v ≠ Empty →
  similarity g ij (neighbor_size self) (neighbor_tol self) = Ok true →
  random_choice randbelow (argwhere_eq g Empty) s = Ok (dst, s') →
  ∃ g', visit randbelow self (g, s) ij = Ok (g', s') ∧ relocation g ij dst g'.
Proof.
  intros H Hv Hsim Hch. rewrite (visit_move _ _ _ _ v) by done.
  rewrite Hch. simpl.
  apply random_choice_Ok in Hch as (_ & k & _ & Hk).
  apply list_elem_of_lookup_2, elem_of_argwhere_eq in Hk as [_ Hdst].
  apply getitem_Ok in H as (ks & Hks & Hs).
  apply getitem_Ok in Hdst as (kd & Hkd & Hd).
  rewrite (setitem_Ok g dst v kd) by done. simpl.
  erewrite setitem_Ok by (by erewrite offset_shape). simpl.
  eexists. split; [done|]. by exists v, ks, kd.
Qed.

Lemma visit_Ok_inv self g s ij g' s' :
  visit randbelow self (g, s) ij = Ok (g', s') →
  (g' = g ∧ s' = s)
  ∨ ∃ v dst k,
      getitem g ij = Ok v ∧ v ≠ Empty
      ∧ similarity g ij (neighbor_size self) (neighbor_tol self) = Ok true
      ∧ randbelow s (length (argwhere_eq g Empty)) = (k, s')
      ∧ argwhere_eq g Empty !! k = Some dst
      ∧ relocation g ij dst g'.
Proof.
  intros Hvisit.
  destruct (getitem g ij) as [v|e] eqn:Hget; [|by unfold visit in Hvisit; rewrite Hget in Hvisit].
  destruct (decide (v = Empty)) as [->|Hv].
  { rewrite visit_empty in Hvisit by done. left. split; congruence. }
  destruct (similarity g ij (neighbor_size self) (neighbor_tol self))
    as [[]|e] eqn:Hsim.
  - right.
    destruct (random_choice randbelow (argwhere_eq g Empty) s)
      as [[dst s1]|e] eqn:Hch.
    + destruct (visit_move_relocation self g s ij v dst s1) as (g1 & Hv1 & Hrel);
        [done..|].
      rewrite Hv1 in Hvisit. injection Hvisit as <- <-.
      apply random_choice_Ok in Hch as (_ & k & Hk & Hdst).
      by exists v, dst, k.
    + rewrite (visit_move _ _ _ _ v) in Hvisit by done.
      by rewrite Hch in Hvisit.
  - rewrite (visit_stay _ _ _ _ v) in Hvisit by done. left. split; congruence.
  - unfold visit in Hvisit. rewrite Hget in Hvisit. simpl in Hvisit.
    rewrite decide_False in Hvisit by done. by rewrite Hsim in Hvisit.
Qed.

(** The two nested loops visit the cells in row-major order. *)
Lemma for_each_fmap {S A B : Type} (f : A → B) (body : S → B → result S)
    (xs : list A) (st : S) :
  for_each body (f <$> xs) st = for_each (λ st x, body st (f x)) xs st.
Proof.
  revert st. induction xs as [|x xs IH]; intros st; [done|].
  simpl. destruct (body st (f x)); simpl; [apply IH|done].
Qed.

Lemma for_each_product {S : Type} (body : S → coord → result S)
    (xs ys : list Z) (st : S) :
  for_each body (product xs ys) st
  = for_each (λ st x, for_each (λ st y, body st (x, y)) ys st) xs st.
Proof.
  revert st. induction xs as [|x xs IH]; intros st; [done|].
  rewrite product_cons, for_each_app, for_each_fmap. simpl.
  destruct (for_each _ ys st); simpl; [apply IH|done].
Qed.

Lemma sweep_row_major self (st : ndarray * rng) :
  sweep randbelow self st
  = for_each (visit randbelow self) (row_major (size self).1 (size self).2) st.
Proof.
  unfold sweep, row_major. destruct (size self) as [h w]. simpl.
  by rewrite for_each_product.
Qed.

(** Every step of the engine only rearranges the grid. *)
Lemma rearranged_refl g : rearranged g g.
Proof. by split. Qed.

Lemma rearranged_trans g1 g2 g3 :
  rearranged g1 g2 → rearranged g2 g3 → rearranged g1 g3.
Proof. intros [H1 H2] [H3 H4]. split; [congruence|by etrans]. Qed.

Lemma rearranged_population g g' (v : Z) :
  rearranged g g' → population v g' = population v g.
Proof. intros [_ H]. unfold population, count. by rewrite H. Qed.

Lemma rearranged_occupants g g' :
  rearranged g g' → occupants g' = occupants g.
Proof. intros [_ H]. unfold occupants. by rewrite H. Qed.

Lemma rearranged_wf g g' : rearranged g g' → wf_array g → wf_array g'.
Proof. intros [H1 H2]. unfold wf_array. by rewrite H1, H2. Qed.

Lemma relocation_rearranged g src dst g' :
  relocation g src dst g' → rearranged g g'.
Proof.
  intros H. split; [by eapply relocation_shape|by eapply relocation_Permutation].
Qed.

Lemma visit_rearranged self g s ij g' s' :
  visit randbelow self (g, s) ij = Ok (g', s') → rearranged g g'.
Proof.
  intros [[-> _]|(v & dst & k & _ & _ & _ & _ & _ & Hrel)]%visit_Ok_inv.
  - apply rearranged_refl.
  - by eapply relocation_rearranged.
Qed.

Lemma sweep_rearranged self g s g' s' :
  sweep randbelow self (g, s) = Ok (g', s') → rearranged g g'.
Proof.
  rewrite sweep_row_major. intros H.
  apply (for_each_invariant (λ st, rearranged g st.1) _ _ _ _) in H; [done| |].
  - intros [g1 s1] c [g2 s2] _ Hg1 Hv. simpl in *.
    eapply rearranged_trans; [done|by eapply visit_rearranged].
  - apply rearranged_refl.
Qed.

Lemma frame_step_Ok self (st st' : run_state rng) :
  frame_step randbelow self st = Ok st' ↔
  show_every self ≠ 0 ∧
  ∃ g' s', sweep randbelow self (grid st, gen st) = Ok (g', s')
    ∧ st' = RunState g' (frame st + 1) s'
              (if decide (frame st mod show_every self = 0)
               then shown st ++ [(frame st, grid st)] else shown st).
Proof.
  unfold frame_step, py_mod. case_decide as Hse; simpl.
  - split; [done|]. by intros [? _].
  - destruct (sweep _ _ _) as [[g' s']|e]; simpl; split.
    + intros [= <-]. split; [done|]. by exists g', s'.
    + intros (_ & g1 & s1 & [= <- <-] & ->). done.
    + done.
    + by intros (_ & g1 & s1 & ? & _).
Qed.

Lemma frame_step_rearranged self (st st' : run_state rng) :
  frame_step randbelow self st = Ok st' → rearranged (grid st) (grid st').
Proof.
  intros (_ & g' & s' & Hsw & ->)%frame_step_Ok. simpl.
  by eapply sweep_rearranged.
Qed.

Lemma step_frames_rearranged self n (st st' : run_state rng) :
  step_frames randbelow self n st = Ok st' → rearranged (grid st) (grid st').
Proof.
  revert st. induction n as [|n IH]; intros st; simpl.
  - intros [= <-]. apply rearranged_refl.
  - intros (st1 & H1 & H2)%bind_Ok.
    eapply rearranged_trans; [by eapply frame_step_rearranged|by apply IH].
Qed.

(** The loop and its frame counter. *)
Lemma while_frames_eq self (st : run_state rng) :
  while_frames randbelow self st =
  if decide (frame st < max_frame self)
  then frame_step randbelow self st ≫= while_frames randbelow self
  else Ok st.
Proof.
  rewrite while_frames_equation_1.
  destruct (decide _); simp while_frames; [|done].
  destruct (inspect (frame_step randbelow self st)) as [[st'|e] E];
    simp while_frames; rewrite E; simpl; by rewrite ?while_frames_equation_1.
Qed.

Lemma while_frames_step_frames self (st : run_state rng) :
  while_frames randbelow self st
  = step_frames randbelow self (Z.to_nat (max_frame self - frame st)) st.
Proof.
  remember (Z.to_nat (max_frame self - frame st)) as n eqn:Hn.
  revert st Hn. induction n as [|n IH]; intros st Hn;
    rewrite while_frames_eq; case_decide; try lia; [done|].
  simpl. destruct (frame_step randbelow self st) as [st'|e] eqn:E; [|done].
  simpl. apply IH. apply frame_step_frame in E. lia.
Qed.

Lemma step_frames_frame self n (st st' : run_state rng) :
  step_frames randbelow self n st = Ok st' → frame st' = frame st + Z.of_nat n.
Proof.
  revert st. induction n as [|n IH]; intros st; simpl.
  - intros [= <-]. lia.
  - intros (st1 & H1 & H2)%bind_Ok.
    apply frame_step_frame in H1. apply IH in H2. lia.
Qed.

Lemma step_frames_shown self n (st st' : run_state rng) :
  step_frames randbelow self n st = Ok st' →
  (shown st').*1
  = (shown st).*1
    ++ filter (λ k, k mod show_every self = 0)
         (range (frame st) (frame st + Z.of_nat n)).
Proof.
  revert st. induction n as [|n IH]; intros st; simpl.
  - intros [= <-]. unfold range. rewrite seqZ_nil by lia. by rewrite app_nil_r.
  - intros (st1 & H1 & H2)%bind_Ok. apply IH in H2. rewrite H2.
    apply frame_step_Ok in H1 as (_ & g' & s' & _ & ->). simpl.
    unfold range. rewrite (seqZ_cons (frame st)) by lia.
    rewrite filter_cons.
    replace (Z.pred (frame st + Z.of_nat (S n) - frame st))
      with (frame st + 1 + Z.of_nat n - (frame st + 1)) by lia.
    replace (Z.succ (frame st)) with (frame st + 1) by lia.
    case_decide; [|done].
    by rewrite fmap_app, <- app_assoc.
Qed.

Lemma lookup_product (xs ys : list Z) (i j : nat) (x y : Z) :
  xs !! i = Some x → ys !! j = Some y →
  product xs ys !! (i * length ys + j)%nat = Some (x, y).
Proof.
  revert i. induction xs as [|a xs IH]; intros i Hx Hy; [done|].
  rewrite product_cons. destruct i as [|i]; simpl in *.
  - rewrite lookup_app_l by (rewrite length_fmap; by eapply lookup_lt_Some).
    rewrite list_lookup_fmap, Hy. simpl. congruence.
  - rewrite lookup_app_r by (rewrite length_fmap; lia).
    rewrite length_fmap.
    replace (length ys + i * length ys + j - length ys)%nat
      with (i * length ys + j)%nat by lia.
    by apply IH.
Qed.

Lemma lookup_row_major (h w i j : nat) :
  (i < h)%nat → (j < w)%nat →
  row_major h w !! (i * w + j)%nat = Some (Z.of_nat i, Z.of_nat j).
Proof.
  intros Hi Hj. unfold row_major.
  pose proof (lookup_product (range 0 (Z.of_nat h)) (range 0 (Z.of_nat w))
                i j (Z.of_nat i) (Z.of_nat j)) as H.
  rewrite length_range in H.
  replace (Z.to_nat (Z.of_nat w - 0)) with w in H by lia.
  apply H; unfold range; rewrite lookup_seqZ; split; lia.
Qed.

(** C9. A run configured with [max_frame = F] is [F] frame steps in a
    row from the initial state, an exception in a step ending the run;
    when it returns, the frame counter is [F], the loop condition is false
    (entering the loop again from the final state performs no step), and
    the snapshots taken are those of the frames [0 <= k < F] that are
    multiples of [show_every], in order. *)
Theorem run_performs_max_frame_steps self draws s (F : nat) :
  max_frame self = Z.of_nat F →
  run randbelow self draws s
  = step_frames randbelow self F (initial_state self draws s)
  ∧ ∀ st, run randbelow self draws s = Ok st →
      frame st = Z.of_nat F
      ∧ while_frames randbelow self st = Ok st
      ∧ (shown st).*1
        = filter (λ k, k mod show_every self = 0) (range 0 (Z.of_nat F)).
Proof.
  intros HF.
  assert (Hrun : run randbelow self draws s
                 = step_frames randbelow self F (initial_state self draws s)).
  { unfold run. rewrite while_frames_step_frames. simpl. f_equal. lia. }
  split; [done|]. intros st Hst. rewrite Hrun in Hst. split_and!.
  - apply step_frames_frame in Hst. simpl in Hst. lia.
  - apply step_frames_frame in Hst. simpl in Hst.
    rewrite while_frames_eq. case_decide; [lia|done].
  - apply step_frames_shown in Hst. simpl in Hst. by rewrite Hst.
Qed.

Lemma step_frames_add self (a b : nat) (st : run_state rng) :
  step_frames randbelow self (a + b) st
  = step_frames randbelow self a st ≫= step_frames randbelow self b.
Proof.
  revert st. induction a as [|a IH]; intros st; [done|].
  simpl. destruct (frame_step randbelow self st); simpl; [apply IH|done].
Qed.

(** A run that returns has gone through the state after each of its
    frames. *)
Lemma run_passes_through self draws s (k : nat) (st : run_state rng) :
  run randbelow self draws s = Ok st →
  Z.of_nat k ≤ max_frame self →
  ∃ st_k, step_frames randbelow self k (initial_state self draws s) = Ok st_k
    ∧ step_frames randbelow self (Z.to_nat (max_frame self) - k) st_k = Ok st.
Proof.
  intros Hrun Hk. unfold run in Hrun.
  rewrite while_frames_step_frames in Hrun. simpl in Hrun.
  replace (Z.to_nat (max_frame self - 0))
    with (k + (Z.to_nat (max_frame self) - k))%nat in Hrun by lia.
  rewrite step_frames_add in Hrun.
  apply bind_Ok in Hrun as (st_k & H1 & H2). by exists st_k.
Qed.

(** C3. After every frame of every run, and when the run returns, the
    numbers of TypeA, TypeB and Empty cells are those of the initial grid;
    a visit that changes the grid is a relocation; and a relocation takes
    the occupant of its origin to a cell that was Empty, leaves the origin
    Empty, and only rearranges the cells. *)
Theorem occupants_conserved self draws s (k : nat) (st : run_state rng) :
  step_frames randbelow self k (initial_state self draws s) = Ok st →
  (population TypeA (grid st) = population TypeA (initial_grid self draws)
   ∧ population TypeB (grid st) = population TypeB (initial_grid self draws)
   ∧ population Empty (grid st) = population Empty (initial_grid self draws))
  ∧ (∀ st', run randbelow self draws s = Ok st' →
       population TypeA (grid st') = population TypeA (initial_grid self draws)
       ∧ population TypeB (grid st') = population TypeB (initial_grid self draws)
       ∧ population Empty (grid st') = population Empty (initial_grid self draws))
  ∧ (∀ g s0 ij g' s',
       visit randbelow self (g, s0) ij = Ok (g', s') →
       g' = g ∨ ∃ dst, relocation g ij dst g')
  ∧ (∀ g src dst g',
       relocation g src dst g' →
       rearranged g g'
       ∧ ∃ v, v ≠ Empty
           ∧ getitem g src = Ok v ∧ getitem g dst = Ok Empty
           ∧ getitem g' src = Ok Empty ∧ getitem g' dst = Ok v).
Proof.
  intros Hst. apply step_frames_rearranged in Hst. simpl in Hst. split_and!.
  - by apply rearranged_population.
  - by apply rearranged_population.
  - by apply rearranged_population.
  - intros st' Hrun. unfold run in Hrun.
    rewrite while_frames_step_frames in Hrun.
    apply step_frames_rearranged in Hrun. simpl in Hrun.
    split_and!; by apply rearranged_population.
  - intros g s0 ij g' s' [[-> _]|(v & dst & _ & _ & _ & _ & _ & _ & Hrel)]%visit_Ok_inv.
    + by left.
    + right. by exists dst.
  - intros g src dst g' Hrel. split.
    + by apply relocation_rearranged in Hrel.
    + by apply relocation_cells.
Qed.

(** C7. A frame's sweep visits the cells one after the other in
    row-major order, each visit working on the grid and the generator the
    visit before it left.  An Empty cell is skipped.  An occupied cell
    that need not move is left alone.  An occupied cell that must move is
    relocated to the cell that [random.choice] returns from the list of
    the Empty cells of the grid as it is at that visit; [random.choice]
    returns the entry at the index the generator draws for the length of
    the list, and the list holds each Empty cell of that grid once, so a
    uniform index is a uniform choice among them.  Nothing else changes
    the grid or the generator. *)
Theorem sweep_in_place_row_major self g s :
  let h := (size self).1 in
  let w := (size self).2 in
  sweep randbelow self (g, s)
  = for_each (visit randbelow self) (row_major h w) (g, s)
  ∧ (∀ i j : nat, (i < h)%nat → (j < w)%nat →
       row_major h w !! (i * w + j)%nat = Some (Z.of_nat i, Z.of_nat j))
  ∧ length (row_major h w) = (h * w)%nat
  ∧ (∀ ij rest st,
       for_each (visit randbelow self) (ij :: rest) st
       = visit randbelow self st ij ≫= for_each (visit randbelow self) rest)
  ∧ (∀ g1 s1 ij,
       getitem g1 ij = Ok Empty → visit randbelow self (g1, s1) ij = Ok (g1, s1))
  ∧ (∀ g1 s1 ij v,
       getitem g1 ij = Ok v → v ≠ Empty →
       similarity g1 ij (neighbor_size self) (neighbor_tol self) = Ok false →
       visit randbelow self (g1, s1) ij = Ok (g1, s1))
  ∧ (∀ g1 s1 ij v dst s2,
       getitem g1 ij = Ok v → v ≠ Empty →
       similarity g1 ij (neighbor_size self) (neighbor_tol self) = Ok true →
       random_choice randbelow (argwhere_eq g1 Empty) s1 = Ok (dst, s2) →
       ∃ g2, visit randbelow self (g1, s1) ij = Ok (g2, s2)
         ∧ relocation g1 ij dst g2)
  ∧ (∀ (seq : list coord) s1 dst s2,
       random_choice randbelow seq s1 = Ok (dst, s2)
       ↔ seq ≠ [] ∧ ∃ k, randbelow s1 (length seq) = (k, s2) ∧ seq !! k = Some dst)
  ∧ (∀ g1 c,
       c ∈ argwhere_eq g1 Empty
       ↔ in_bounds (Z.of_nat (shape g1).1) (Z.of_nat (shape g1).2) c
         ∧ getitem g1 c = Ok Empty)
  ∧ (∀ g1, NoDup (argwhere_eq g1 Empty))
  ∧ (∀ g1 s1 ij g2 s2,
       visit randbelow self (g1, s1) ij = Ok (g2, s2) →
       (g2 = g1 ∧ s2 = s1)
       ∨ ∃ v dst k,
           getitem g1 ij = Ok v ∧ v ≠ Empty
           ∧ similarity g1 ij (neighbor_size self) (neighbor_tol self) = Ok true
           ∧ randbelow s1 (length (argwhere_eq g1 Empty)) = (k, s2)
           ∧ argwhere_eq g1 Empty !! k = Some dst
           ∧ relocation g1 ij dst g2).
Proof.
  intros h w. split_and!.
  - apply sweep_row_major.
  - apply lookup_row_major.
  - unfold row_major. rewrite length_product, !length_range. lia.
  - done.
  - intros. by apply visit_empty.
  - intros. by eapply visit_stay.
  - intros. by eapply visit_move_relocation.
  - intros. apply random_choice_Ok.
  - intros. apply elem_of_argwhere_eq.
  - intros. apply argwhere_eq_NoDup.
  - apply visit_Ok_inv.
Qed.

Lemma count_zero_not_elem_of (v : Z) (l : list Z) : count v l = O → v ∉ l.
Proof.
  unfold count. intros H Hin.
  assert (Hf : v ∈ filter (λ x, x = v) l) by (by apply list_elem_of_filter).
  destruct (filter (λ x, x = v) l); [by apply elem_of_nil in Hf|done].
Qed.

Lemma argwhere_eq_nil g (v : Z) : v ∉ data g → argwhere_eq g v = [].
Proof.
  intros Hv. destruct (argwhere_eq g v) as [|c l] eqn:E; [done|].
  assert (Hc : c ∈ argwhere_eq g v) by (rewrite E; by left).
  apply elem_of_argwhere_eq in Hc as [_ Hc%getitem_elem_of]. done.
Qed.

(** C5, amended. When an occupied cell must relocate and the grid holds
    no Empty cell, [random.choice] is called on the empty list of
    destinations and raises [IndexError]; nothing catches it, so the
    visit, the sweep it belongs to, the frame and the run from that frame
    on all end with [IndexError]. *)
Theorem relocation_without_empty_cell self (st : run_state rng)
    (pre post : list coord) ij g s (v : Z) :
  frame st < max_frame self →
  show_every self ≠ 0 →
  row_major (size self).1 (size self).2 = pre ++ ij :: post →
  for_each (visit randbelow self) pre (grid st, gen st) = Ok (g, s) →
  getitem g ij = Ok v → v ≠ Empty →
  similarity g ij (neighbor_size self) (neighbor_tol self) = Ok true →
  population Empty g = O →
  random_choice randbelow (argwhere_eq g Empty) s = Raise IndexError
  ∧ visit randbelow self (g, s) ij = Raise IndexError
  ∧ sweep randbelow self (grid st, gen st) = Raise IndexError
  ∧ frame_step randbelow self st = Raise IndexError
  ∧ while_frames randbelow self st = Raise IndexError.
Proof.
  intros Hframe Hse Hrm Hpre Hget Hv Hsim Hfull.
  assert (Hnone : argwhere_eq g Empty = [])
    by (by apply argwhere_eq_nil, count_zero_not_elem_of).
  assert (Hchoice :
    random_choice randbelow (argwhere_eq g Empty) s = Raise IndexError)
    by (by rewrite Hnone).
  assert (Hvisit : visit randbelow self (g, s) ij = Raise IndexError)
    by (by rewrite (visit_move _ _ _ _ v), Hchoice).
  assert (Hsweep : sweep randbelow self (grid st, gen st) = Raise IndexError).
  { by rewrite sweep_row_major, Hrm, for_each_app, Hpre, bind_Ok_l,
      for_each_cons, Hvisit. }
  assert (Hstep : frame_step randbelow self st = Raise IndexError).
  { unfold frame_step, py_mod. rewrite decide_False by done. simpl.
    by rewrite Hsweep. }
  split_and!; [done..|].
  rewrite while_frames_eq, decide_True by done. by rewrite Hstep.
Qed.

(** An all-Empty grid never changes. *)
Lemma for_each_fixed {S A : Type} (body : S → A → result S) (xs : list A) (st : S) :
  (∀ x, x ∈ xs → body st x = Ok st) → for_each body xs st = Ok st.
Proof.
  induction xs as [|x xs IH]; intros H; [done|]. simpl.
  rewrite H by (by left). simpl. apply IH. intros y Hy. apply H. by right.
Qed.

Lemma sweep_all_empty self g s :
  wf_array g → shape g = size self → Forall (λ x, x = Empty) (data g) →
  sweep randbelow self (g, s) = Ok (g, s).
Proof.
  intros Hwf Hshape Hdata. rewrite sweep_row_major.
  apply for_each_fixed. intros c Hc%elem_of_row_major.
  apply visit_empty.
  destruct (getitem_in_bounds g c) as [v Hv]; [done|by rewrite Hshape|].
  rewrite Hv. f_equal.
  apply getitem_elem_of in Hv. by eapply Forall_forall in Hdata.
Qed.

Lemma step_frames_all_empty self n (st : run_state rng) :
  show_every self ≠ 0 →
  wf_array (grid st) → shape (grid st) = size self →
  Forall (λ x, x = Empty) (data (grid st)) →
  ∃ st', step_frames randbelow self n st = Ok st'
    ∧ grid st' = grid st ∧ gen st' = gen st
    ∧ frame st' = frame st + Z.of_nat n.
Proof.
  intros Hse. revert st. induction n as [|n IH]; intros st Hwf Hshape Hdata.
  - exists st. split_and!; [done..|lia].
  - simpl. unfold frame_step, py_mod. rewrite decide_False by done. simpl.
    rewrite sweep_all_empty by done. simpl.
    match goal with
    | |- ∃ st', step_frames _ _ _ ?st1 = _ ∧ _ =>
        destruct (IH st1) as (st' & Hst & Hg & Hs & Hf); [done..|]
    end.
    exists st'. simpl in *. split_and!; [done..|lia].
Qed.

Lemma categorical_sample_second (sz : nat * nat) (draws : list Z) :
  categorical_sample [0; 1; 0]%float sz draws → Forall (λ k, k = 1) draws.
Proof.
  intros [_ H]. eapply Forall_impl; [exact H|]. simpl.
  intros k (q & Hq & Hk & Hpos).
  assert (k = 0 ∨ k = 1 ∨ k = 2) as [-> | [-> | ->]] by lia;
    [|done|]; simpl in Hq; injection Hq as <-; by vm_compute in Hpos.
Qed.

Lemma all_empty_has_no_occupant (draws : list Z) :
  Forall (λ k, k = 1) draws →
  length (filter (λ x, x ≠ Empty) ((λ k, k - 1) <$> draws)) = O.
Proof.
  induction 1 as [|k l -> _ IH]; [done|].
  rewrite fmap_cons, filter_cons_False; [done|]. unfold Empty. lia.
Qed.

(** C1, amended. For every configuration and every outcome of the
    initial sampling, the grid has the configured shape with one cell per
    draw, and each cell holds the state [k - 1] of its category index
    [k]: index 0 gives TypeA, index 1 gives Empty, index 2 gives TypeB.
    So [prior_dist] is read in the order [TypeA, Empty, TypeB]: a cell is
    TypeA only where [prior_dist[0]] is positive, Empty only where
    [prior_dist[1]] is, TypeB only where [prior_dist[2]] is.  In
    particular, with [prior_dist = [0.0, 1.0, 0.0]] and a non-zero
    [show_every] the initial grid has no occupant, and the run returns
    after all its frames with the grid and the generator untouched. *)
Theorem second_entry_is_empty self draws s :
  categorical_sample (prior_dist self) (size self) draws →
  (shape (initial_grid self draws) = size self
   ∧ wf_array (initial_grid self draws)
   ∧ length (data (initial_grid self draws)) = length draws)
  ∧ (∀ (i : nat) (k : Z),
       draws !! i = Some k →
       data (initial_grid self draws) !! i
       = Some (if decide (k = 0) then TypeA
               else if decide (k = 1) then Empty
               else if decide (k = 2) then TypeB else k - 1))
  ∧ (∀ (i : nat) (v : Z),
       data (initial_grid self draws) !! i = Some v →
       ∃ q, (0 <? q)%float = true
         ∧ ((v = TypeA ∧ draws !! i = Some 0
             ∧ prior_dist self !! 0%nat = Some q)
            ∨ (v = Empty ∧ draws !! i = Some 1
               ∧ prior_dist self !! 1%nat = Some q)
            ∨ (v = TypeB ∧ draws !! i = Some 2
               ∧ prior_dist self !! 2%nat = Some q)))
  ∧ (prior_dist self = [0; 1; 0]%float →
     show_every self ≠ 0 →
     occupants (initial_grid self draws) = O
     ∧ ∃ st, run randbelow self draws s = Ok st
         ∧ grid st = initial_grid self draws
         ∧ gen st = s
         ∧ frame st = Z.max 0 (max_frame self)).
Proof.
  intros Hsample. split_and!.
  - done.
  - unfold wf_array. simpl. rewrite length_fmap. apply Hsample.
  - simpl. apply length_fmap.
  - intros i k Hk. simpl. rewrite list_lookup_fmap, Hk. simpl. f_equal.
    unfold TypeA, Empty, TypeB. repeat case_decide; lia.
  - intros i v Hv. simpl in Hv. rewrite list_lookup_fmap in Hv.
    destruct (draws !! i) as [k|] eqn:Hk; [|done].
    simpl in Hv. injection Hv as <-.
    destruct Hsample as [_ Hall].
    eapply Forall_forall in Hall; [|by eapply list_elem_of_lookup_2].
    destruct Hall as (q & Hq & Hrange & Hpos).
    exists q. split; [done|]. unfold TypeA, Empty, TypeB.
    assert (k = 0 ∨ k = 1 ∨ k = 2) as [-> | [-> | ->]] by lia;
      simpl in Hq; [left|right; left|right; right]; by split_and!.
  - intros Hp Hse. rewrite Hp in Hsample.
    pose proof (categorical_sample_second _ _ Hsample) as Hones.
    split; [by apply all_empty_has_no_occupant|].
    unfold run. rewrite while_frames_step_frames.
    destruct (step_frames_all_empty self
                (Z.to_nat (max_frame self - frame (initial_state self draws s)))
                (initial_state self draws s)) as (st & Hst & Hg & Hs & Hf);
      [done|..].
    + unfold wf_array. simpl. rewrite length_fmap. apply Hsample.
    + done.
    + simpl. apply Forall_fmap. eapply Forall_impl; [exact Hones|].
      by intros k ->.
    + exists st. split_and!; [done..|]. rewrite Hf. simpl. lia.
Qed.

End EngineFacts.

(** ** Two runs side by side *)

Section TwoRuns.
Context {rng1 rng2 : Type}.
Context (randbelow1 : rng1 → nat → nat * rng1).
Context (randbelow2 : rng2 → nat → nat * rng2).

(** Two generators are seeded alike when their states are related by a
    relation that every draw preserves and under which every draw gives
    the same index. *)
Context (R : rng1 → rng2 → Prop).
Hypothesis R_randbelow : ∀ s1 s2 n,
  R s1 s2 →
  (randbelow1 s1 n).1 = (randbelow2 s2 n).1
  ∧ R (randbelow1 s1 n).2 (randbelow2 s2 n).2.

Lemma result_rel_bind {A1 A2 B1 B2 : Type} (P : A1 → A2 → Prop)
    (Q : B1 → B2 → Prop) (m1 : result A1) (m2 : result A2)
    (f1 : A1 → result B1) (f2 : A2 → result B2) :
  result_rel P m1 m2 →
  (∀ a1 a2, P a1 a2 → result_rel Q (f1 a1) (f2 a2)) →
  result_rel Q (m1 ≫= f1) (m2 ≫= f2).
Proof. destruct m1, m2; simpl; auto; done. Qed.

Lemma random_choice_rel {A : Type} (seq : list A) s1 s2 :
  R s1 s2 →
  result_rel (same_pair R) (random_choice randbelow1 seq s1)
    (random_choice randbelow2 seq s2).
Proof.
  intros HR. unfold random_choice. destruct seq as [|a seq]; [done|].
  destruct (R_randbelow s1 s2 (length (a :: seq)) HR) as [Hk HR'].
  destruct (randbelow1 s1 _) as [k1 s1'], (randbelow2 s2 _) as [k2 s2'].
  simpl in *. subst k2. by destruct ((a :: seq) !! k1).
Qed.

Lemma visit_rel self (st1 : ndarray * rng1) (st2 : ndarray * rng2) ij :
  same_pair R st1 st2 →
  result_rel (same_pair R) (visit randbelow1 self st1 ij) (visit randbelow2 self st2 ij).
Proof.
  destruct st1 as [g s1], st2 as [g2 s2]. intros [Hg HR]. simpl in *. subst g2.
  unfold visit. destruct (getitem g ij) as [v|]; [|done]. simpl.
  case_decide; [done|].
  destruct (similarity _ _ _ _) as [[]|]; [|done..]. simpl.
  eapply result_rel_bind; [by apply random_choice_rel|].
  intros [d1 t1] [d2 t2] [Hd Ht]. simpl in *. subst d2.
  destruct (setitem g d1 v) as [g1|]; [|done]. simpl.
  by destruct (setitem g1 ij 0).
Qed.

Lemma for_each_rel {S1 S2 A : Type} (P : S1 → S2 → Prop)
    (body1 : S1 → A → result S1) (body2 : S2 → A → result S2) (xs : list A) :
  (∀ st1 st2 x, P st1 st2 → result_rel P (body1 st1 x) (body2 st2 x)) →
  ∀ st1 st2, P st1 st2 →
    result_rel P (for_each body1 xs st1) (for_each body2 xs st2).
Proof.
  intros Hbody. induction xs as [|x xs IH]; intros st1 st2 HP; [done|].
  simpl. eapply result_rel_bind; [by apply Hbody|]. apply IH.
Qed.

Lemma sweep_rel self (st1 : ndarray * rng1) (st2 : ndarray * rng2) :
  same_pair R st1 st2 →
  result_rel (same_pair R) (sweep randbelow1 self st1) (sweep randbelow2 self st2).
Proof.
  intros H. rewrite !sweep_row_major.
  apply for_each_rel; [|done]. intros. by apply visit_rel.
Qed.

Lemma frame_step_rel self (st1 : run_state rng1) (st2 : run_state rng2) :
  same_state R st1 st2 →
  same_outcome R (frame_step randbelow1 self st1) (frame_step randbelow2 self st2).
Proof.
  intros (Hg & Hf & Hsh & HR). unfold frame_step. rewrite Hg, Hf, Hsh.
  destruct (py_mod _ _) as [r|]; [|done]. simpl.
  eapply result_rel_bind; [by apply (sweep_rel self (_, _) (_, _))|].
  intros [g1 t1] [g2 t2] [Hg12 Ht]. simpl in *. subst g2.
  by repeat split.
Qed.

Lemma step_frames_rel self n (st1 : run_state rng1) (st2 : run_state rng2) :
  same_state R st1 st2 →
  same_outcome R (step_frames randbelow1 self n st1)
    (step_frames randbelow2 self n st2).
Proof.
  revert st1 st2. induction n as [|n IH]; intros st1 st2 H; [done|].
  simpl. eapply result_rel_bind; [by apply frame_step_rel|]. apply IH.
Qed.

(** Two runs of one configuration from the same initial sample and from
    generators whose related states always give the same index have
    matching outcomes after every number of frames. *)
Lemma seeded_runs_agree self draws s1 s2 :
  R s1 s2 →
  (∀ k, same_outcome R
          (step_frames randbelow1 self k (initial_state self draws s1))
          (step_frames randbelow2 self k (initial_state self draws s2)))
  ∧ same_outcome R (run randbelow1 self draws s1) (run randbelow2 self draws s2).
Proof.
  intros HR.
  assert (Hinit : same_state R (initial_state self draws s1)
                    (initial_state self draws s2)) by done.
  split.
  - intros k. by apply step_frames_rel.
  - unfold run. rewrite !while_frames_step_frames. by apply step_frames_rel.
Qed.

End TwoRuns.

(** ** What a run takes from the generator *)

Section Replay.
Context {rng : Type} (randbelow : rng → nat → nat * rng).
Implicit Types (self : SchellingModel) (g : ndarray) (s : rng) (ij : coord).
Implicit Types (log new rest : list nat).







(** Recording changes nothing: a run under the recording generator has
    the outcome of the run under the generator it wraps. *)
Lemma recording_mirrors_run self (n : nat) draws s :
  same_outcome (λ s1 (p2 : rng * list nat), p2.1 = s1)
    (step_frames randbelow self n (initial_state self draws s))
    (step_frames (recording randbelow) self n (initial_state self draws (s, []))).
Proof.
  apply (step_frames_rel randbelow (recording randbelow)
           (λ s1 (p2 : rng * list nat), p2.1 = s1)); [|done].
  intros s1 [s2 log] m Heq. simpl in Heq. subst s2.
  unfold recording. simpl. by destruct (randbelow s1 m).
Qed.

End Replay.

Section TwoRecordedRuns.
Context {rng1 rng2 : Type}.
Context (randbelow1 : rng1 → nat → nat * rng1).
Context (randbelow2 : rng2 → nat → nat * rng2).


End TwoRecordedRuns.

(** ** The theorems at concrete runs *)

Ltac sample_holds :=
  split; [reflexivity|];
  repeat (constructor; [eexists; split_and!; [reflexivity|lia|lia|reflexivity]|]);
  constructor.

Lemma run_performs_max_frame_steps_witness :
  run tape_randbelow demo demo_draws demo_tape
  = step_frames tape_randbelow demo 3 (initial_state demo demo_draws demo_tape)
  ∧ ∀ st, run tape_randbelow demo demo_draws demo_tape = Ok st →
      frame st = Z.of_nat 3
      ∧ while_frames tape_randbelow demo st = Ok st
      ∧ (shown st).*1
        = filter (λ k, k mod show_every demo = 0) (range 0 (Z.of_nat 3)).
Proof.
  apply (run_performs_max_frame_steps tape_randbelow demo demo_draws demo_tape 3).
  reflexivity.
Defined.

(** The run on the fixture returns after three frames, having shown the
    frames 0 and 2. *)
Example demo_run :
  ∃ st, run tape_randbelow demo demo_draws demo_tape = Ok st
    ∧ frame st = 3 ∧ (shown st).*1 = [0; 2].
Proof. eexists. split; [by vm_compute|]. by split. Qed.

Lemma occupants_conserved_witness :
  (population TypeA (grid demo_after_two)
   = population TypeA (initial_grid demo demo_draws)
   ∧ population TypeB (grid demo_after_two)
     = population TypeB (initial_grid demo demo_draws)
   ∧ population Empty (grid demo_after_two)
     = population Empty (initial_grid demo demo_draws))
  ∧ (∀ st', run tape_randbelow demo demo_draws demo_tape = Ok st' →
       population TypeA (grid st')
       = population TypeA (initial_grid demo demo_draws)
       ∧ population TypeB (grid st')
         = population TypeB (initial_grid demo demo_draws)
       ∧ population Empty (grid st')
         = population Empty (initial_grid demo demo_draws))
  ∧ (∀ g s0 ij g' s',
       visit tape_randbelow demo (g, s0) ij = Ok (g', s') →
       g' = g ∨ ∃ dst, relocation g ij dst g')
  ∧ (∀ g src dst g',
       relocation g src dst g' →
       rearranged g g'
       ∧ ∃ v, v ≠ Empty
           ∧ getitem g src = Ok v ∧ getitem g dst = Ok Empty
           ∧ getitem g' src = Ok Empty ∧ getitem g' dst = Ok v).
Proof.
  apply (occupants_conserved tape_randbelow demo demo_draws demo_tape 2
           demo_after_two).
  vm_compute. reflexivity.
Defined.

(** Earlier moves are seen later in the same sweep: the cell [(0, 1)] is
    Empty before the sweep, the occupant of [(0, 0)] moves into it, and
    the visit of [(0, 1)] that follows relocates that occupant again. *)
Example sweep_sees_earlier_moves :
  getitem corridor (0, 1) = Ok Empty
  ∧ ∃ g1 g2,
      visit tape_randbelow corridor_model (corridor, empty_tape) (0, 0) = Ok (g1, empty_tape)
      ∧ relocation corridor (0, 0) (0, 1) g1
      ∧ getitem g1 (0, 1) = Ok TypeA
      ∧ visit tape_randbelow corridor_model (g1, empty_tape) (0, 1) = Ok (g2, empty_tape)
      ∧ relocation g1 (0, 1) (0, 0) g2.
Proof.
  split; [reflexivity|].
  exists (NDArray (1%nat, 4%nat) [0; -1; 1; 1]), corridor.
  split_and!; try by vm_compute.
  - exists (-1), 0%nat, 1%nat. by split_and!.
  - exists (-1), 1%nat, 0%nat. by split_and!.
Qed.

(** C5, as the specification states it, fails: on a full grid the
    occupant of [(0, 0)] must relocate, the list of Empty cells is empty,
    and the run ends with the [IndexError] of the selection over it. *)
Lemma full_grid_relocation_index_error :
  categorical_sample (prior_dist crowded) (size crowded) crowded_draws
  ∧ population Empty (initial_grid crowded crowded_draws) = O
  ∧ similarity (initial_grid crowded crowded_draws) (0, 0)
      (neighbor_size crowded) (neighbor_tol crowded) = Ok true
  ∧ random_choice tape_randbelow
      (argwhere_eq (initial_grid crowded crowded_draws) Empty) empty_tape
    = Raise IndexError
  ∧ run tape_randbelow crowded crowded_draws empty_tape = Raise IndexError.
Proof. split; [sample_holds|]. by vm_compute. Qed.

Lemma relocation_without_empty_cell_witness :
  random_choice tape_randbelow
    (argwhere_eq (initial_grid crowded crowded_draws) Empty) empty_tape
  = Raise IndexError
  ∧ visit tape_randbelow crowded (initial_grid crowded crowded_draws, empty_tape) (0, 0)
    = Raise IndexError
  ∧ sweep tape_randbelow crowded
      (grid (initial_state crowded crowded_draws empty_tape),
       gen (initial_state crowded crowded_draws empty_tape))
    = Raise IndexError
  ∧ frame_step tape_randbelow crowded (initial_state crowded crowded_draws empty_tape)
    = Raise IndexError
  ∧ while_frames tape_randbelow crowded (initial_state crowded crowded_draws empty_tape)
    = Raise IndexError.
Proof.
  apply (relocation_without_empty_cell tape_randbelow crowded
           (initial_state crowded crowded_draws empty_tape) [] [(0, 1)] (0, 0)
           (initial_grid crowded crowded_draws) empty_tape (-1)).
  - simpl. lia.
  - simpl. lia.
  - reflexivity.
  - reflexivity.
  - reflexivity.
  - unfold Empty. lia.
  - vm_compute. reflexivity.
  - reflexivity.
Defined.

(** C1, as the specification states it, fails: with
    [prior_dist = [1.0, 0.0, 0.0]] every draw is the index [0], which the
    program turns into the state [-1]: every cell is occupied and none is
    Empty. *)
Lemma first_entry_is_not_empty :
  categorical_sample (prior_dist first_certain) (size first_certain) [0; 0; 0; 0]
  ∧ (∀ draws,
       categorical_sample (prior_dist first_certain) (size first_certain) draws →
       draws = [0; 0; 0; 0])
  ∧ occupants (initial_grid first_certain [0; 0; 0; 0]) = 4%nat
  ∧ population Empty (initial_grid first_certain [0; 0; 0; 0]) = O.
Proof.
  split; [sample_holds|]. split; [|by vm_compute].
  intros draws [Hlen Hall].
  assert (Hzero : Forall (λ k, k = 0) draws).
  { eapply Forall_impl; [exact Hall|]. simpl.
    intros k (q & Hq & Hk & Hpos).
    assert (k = 0 ∨ k = 1 ∨ k = 2) as [-> | [-> | ->]] by lia;
      [done|..]; simpl in Hq; injection Hq as <-; by vm_compute in Hpos. }
  simpl in Hlen.
  do 5 (destruct draws as [|? draws]; [try discriminate Hlen|]);
    [|discriminate Hlen].
  repeat match goal with
         | H : Forall _ (_ :: _) |- _ => apply Forall_cons in H as [-> H]
         end.
  done.
Qed.

Lemma second_entry_is_empty_witness :
  ((shape (initial_grid demo demo_draws) = size demo
    ∧ wf_array (initial_grid demo demo_draws)
    ∧ length (data (initial_grid demo demo_draws)) = length demo_draws)
   ∧ (∀ (i : nat) (k : Z),
        demo_draws !! i = Some k →
        data (initial_grid demo demo_draws) !! i
        = Some (if decide (k = 0) then TypeA
                else if decide (k = 1) then Empty
                else if decide (k = 2) then TypeB else k - 1))
   ∧ (∀ (i : nat) (v : Z),
        data (initial_grid demo demo_draws) !! i = Some v →
        ∃ q, (0 <? q)%float = true
          ∧ ((v = TypeA ∧ demo_draws !! i = Some 0
              ∧ prior_dist demo !! 0%nat = Some q)
             ∨ (v = Empty ∧ demo_draws !! i = Some 1
                ∧ prior_dist demo !! 1%nat = Some q)
             ∨ (v = TypeB ∧ demo_draws !! i = Some 2
                ∧ prior_dist demo !! 2%nat = Some q))))
  ∧ (occupants (initial_grid second_certain [1; 1; 1; 1; 1; 1]) = O
     ∧ ∃ st, run tape_randbelow second_certain [1; 1; 1; 1; 1; 1] demo_tape
             = Ok st
         ∧ grid st = initial_grid second_certain [1; 1; 1; 1; 1; 1]
         ∧ gen st = demo_tape
         ∧ frame st = Z.max 0 (max_frame second_certain)).
Proof.
  split.
  - destruct (second_entry_is_empty tape_randbelow demo demo_draws demo_tape)
      as (H1 & H2 & H3 & _); [sample_holds|].
    by split_and!.
  - destruct (second_entry_is_empty tape_randbelow second_certain
                [1; 1; 1; 1; 1; 1] demo_tape) as (_ & _ & _ & H4);
      [sample_holds|].
    apply H4; [reflexivity|simpl; lia].
Defined.



(** * Part IV: further properties of the program *)

(** ** [find_neighbors] beyond its contract *)

(** X2. Being a neighbour is symmetric between two cells of the grid. *)
Theorem find_neighbors_symmetric (c d : coord) (rows cols r : Z) :
  in_bounds rows cols c → in_bounds rows cols d →
  c ∈ find_neighbors d rows cols r ↔ d ∈ find_neighbors c rows cols r.
Proof.
  intros Hc Hd. rewrite !elem_of_find_neighbors. unfold in_square.
  split; intros (Hsq & Hne & _); (split; [lia|]; split; [congruence|done]).
Qed.

Lemma find_neighbors_symmetric_witness :
  (0, 1) ∈ find_neighbors (1, 2) 3 3 1 ↔ (1, 2) ∈ find_neighbors (0, 1) 3 3 1.
Proof.
  apply (find_neighbors_symmetric (0, 1) (1, 2) 3 3 1);
    unfold in_bounds; simpl; lia.
Defined.

(** X3. A radius that reaches across the whole grid makes every other
    cell a neighbour. *)
Theorem find_neighbors_whole_grid (xy : coord) (rows cols r : Z) :
  in_bounds rows cols xy → rows - 1 ≤ r → cols - 1 ≤ r →
  (∀ c, c ∈ find_neighbors xy rows cols r ↔ in_bounds rows cols c ∧ c ≠ xy)
  ∧ Z.of_nat (length (find_neighbors xy rows cols r)) = rows * cols - 1.
Proof.
  intros Hxy Hrows Hcols. split.
  - intros c. rewrite elem_of_find_neighbors.
    unfold in_square, in_bounds in *. split; [tauto|].
    intros [Hc Hne]. split; [lia|]. split; [done|lia].
  - assert (Hr : 0 ≤ r) by (unfold in_bounds in Hxy; lia).
    pose proof (length_find_neighbors xy rows cols r Hxy Hr) as Hn.
    pose proof (length_square xy r Hr) as Hsq.
    pose proof (length_filter_complement (in_bounds rows cols) (square xy r))
      as Hc.
    pose proof (length_visible xy rows cols r) as Hv.
    unfold clipped in Hn. unfold in_bounds in Hxy.
    replace (Z.min (xy.1 + r + 1) rows - Z.max (xy.1 - r) 0) with rows in Hv
      by lia.
    replace (Z.min (xy.2 + r + 1) cols - Z.max (xy.2 - r) 0) with cols in Hv
      by lia.
    nia.
Qed.

Lemma find_neighbors_whole_grid_witness :
  (∀ c, c ∈ find_neighbors (1, 0) 2 3 5 ↔ in_bounds 2 3 c ∧ c ≠ (1, 0))
  ∧ Z.of_nat (length (find_neighbors (1, 0) 2 3 5)) = 2 * 3 - 1.
Proof.
  apply (find_neighbors_whole_grid (1, 0) 2 3 5);
    unfold in_bounds; simpl; lia.
Defined.

(** X4. A centre outside the grid is not rejected: the cells of its
    window that lie in the grid are all yielded, none of them being the
    centre. *)
Theorem find_neighbors_outside_centre (xy : coord) (rows cols r : Z) :
  ¬ in_bounds rows cols xy →
  find_neighbors xy rows cols r = filter (in_bounds rows cols) (square xy r)
  ∧ (∀ c, c ∈ find_neighbors xy rows cols r
          ↔ in_square xy r c ∧ in_bounds rows cols c)
  ∧ Z.of_nat (length (find_neighbors xy rows cols r))
    = Z.max 0 (Z.min (xy.1 + r + 1) rows - Z.max (xy.1 - r) 0)
      * Z.max 0 (Z.min (xy.2 + r + 1) cols - Z.max (xy.2 - r) 0).
Proof.
  intros Hout.
  assert (Heq : find_neighbors xy rows cols r
                = filter (in_bounds rows cols) (square xy r)).
  { rewrite find_neighbors_square. apply list_filter_iff.
    intros c. split; [tauto|]. intros Hc. split; [|done]. by intros ->. }
  split_and!.
  - done.
  - intros c. rewrite Heq, list_elem_of_filter, elem_of_square. tauto.
  - rewrite Heq, length_visible, Nat2Z.inj_mul. f_equal; lia.
Qed.

Lemma find_neighbors_outside_centre_witness :
  find_neighbors (-1, 3) 3 3 1 = filter (in_bounds 3 3) (square (-1, 3) 1)
  ∧ (∀ c, c ∈ find_neighbors (-1, 3) 3 3 1
          ↔ in_square (-1, 3) 1 c ∧ in_bounds 3 3 c)
  ∧ Z.of_nat (length (find_neighbors (-1, 3) 3 3 1))
    = Z.max 0 (Z.min (-1 + 1 + 1) 3 - Z.max (-1 - 1) 0)
      * Z.max 0 (Z.min (3 + 1 + 1) 3 - Z.max (3 - 1) 0).
Proof.
  apply (find_neighbors_outside_centre (-1, 3) 3 3 1).
  unfold in_bounds. simpl. lia.
Defined.

(** ** [similarity] beyond its contract *)

Lemma axis_index_out_of_range (k : Z) (n : nat) :
  ¬ (- Z.of_nat n ≤ k < Z.of_nat n) → axis_index k n = Raise IndexError.
Proof.
  intros Hk. unfold axis_index. rewrite !decide_False by lia. done.
Qed.

Lemma axis_index_Ok (k : Z) (n i : nat) :
  axis_index k n = Ok i → - Z.of_nat n ≤ k < Z.of_nat n.
Proof. unfold axis_index. repeat case_decide; [lia..|done]. Qed.

Lemma neighborhood_values (g : ndarray) (xy : coord) (r : Z) :
  wf_array g →
  ∃ vs, list_comp (getitem g)
          (find_neighbors xy (Z.of_nat (shape g).1) (Z.of_nat (shape g).2) r)
        = Ok vs
    ∧ Forall2 (λ c v, getitem g c = Ok v)
        (find_neighbors xy (Z.of_nat (shape g).1) (Z.of_nat (shape g).2) r) vs.
Proof.
  intros Hwf. apply list_comp_Ok, Forall_forall.
  intros c Hc%elem_of_find_neighbors. apply getitem_in_bounds; tauto.
Qed.

(** X5. At a coordinate that NumPy cannot index (a row outside [-h, h)
    or a column outside [-w, w)), [similarity] raises [IndexError]: the
    cell is read before the division, so this is the error even where
    the neighbourhood is empty. *)
Theorem similarity_out_of_range (g : ndarray) (xy : coord) (r : Z) (tol : float) :
  wf_array g →
  ¬ (- Z.of_nat (shape g).1 ≤ xy.1 < Z.of_nat (shape g).1
     ∧ - Z.of_nat (shape g).2 ≤ xy.2 < Z.of_nat (shape g).2) →
  similarity g xy r tol = Raise IndexError.
Proof.
  intros Hwf Hout.
  destruct (neighborhood_values g xy r Hwf) as (vs & Hvs & _).
  unfold similarity. destruct (shape g) as [m n] eqn:Hshape. simpl in *.
  rewrite Hvs. simpl.
  assert (Hget : getitem g xy = Raise IndexError); [|by rewrite Hget].
  unfold getitem, offset. rewrite Hshape. simpl.
  destruct (axis_index xy.1 m) as [i|e] eqn:Hi; simpl.
  - apply axis_index_Ok in Hi.
    rewrite axis_index_out_of_range by tauto. done.
  - destruct (decide (- Z.of_nat m ≤ xy.1 < Z.of_nat m)) as [Hin|Hnin].
    + unfold axis_index in Hi. repeat case_decide; done || lia.
    + rewrite axis_index_out_of_range in Hi by done. by injection Hi as <-.
Qed.

Lemma similarity_out_of_range_witness :
  similarity fixture (3, 0) 1 0.5 = Raise IndexError.
Proof.
  apply (similarity_out_of_range fixture (3, 0) 1 0.5).
  - reflexivity.
  - simpl. lia.
Defined.

(** ** The engine: what a visit touches, and what the grid always is *)

Section EngineInvariants.
Context {rng : Type} (randbelow : rng → nat → nat * rng).
Implicit Types (self : SchellingModel) (g : ndarray) (s : rng) (ij : coord).

Lemma relocation_other_cells g src dst g' (c : coord) :
  relocation g src dst g' →
  in_bounds (Z.of_nat (shape g).1) (Z.of_nat (shape g).2) src →
  in_bounds (Z.of_nat (shape g).1) (Z.of_nat (shape g).2) dst →
  in_bounds (Z.of_nat (shape g).1) (Z.of_nat (shape g).2) c →
  c ≠ src → c ≠ dst → getitem g' c = getitem g c.
Proof.
  intros (v & ks & kd & _ & Hks & Hkd & _ & _ & ->) Hsrc Hdst Hc Hns Hnd.
  unfold getitem.
  rewrite (offset_shape (NDArray _ _) g) by done.
  destruct (offset g c) as [kc|] eqn:Hkc; [|done]. simpl.
  assert (kc ≠ ks).
  { intros ->. apply Hns, (offset_inj g); [done..|congruence]. }
  assert (kc ≠ kd).
  { intros ->. apply Hnd, (offset_inj g); [done..|congruence]. }
  by rewrite !list_lookup_insert_ne by done.
Qed.

(** X6. A visit keeps the shape of the grid and changes at most two of
    its cells: the one visited and one destination. *)
Theorem visit_touches_two_cells self g s ij g' s' :
  in_bounds (Z.of_nat (shape g).1) (Z.of_nat (shape g).2) ij →
  visit randbelow self (g, s) ij = Ok (g', s') →
  shape g' = shape g
  ∧ ∃ dst,
      in_bounds (Z.of_nat (shape g).1) (Z.of_nat (shape g).2) dst
      ∧ ∀ c, in_bounds (Z.of_nat (shape g).1) (Z.of_nat (shape g).2) c →
             c ≠ ij → c ≠ dst → getitem g' c = getitem g c.
Proof.
  intros Hij [[-> _]|(v & dst & k & _ & _ & _ & _ & Hdst & Hrel)]%visit_Ok_inv.
  - split; [done|]. by exists ij.
  - split; [by eapply relocation_shape|].
    apply list_elem_of_lookup_2, elem_of_argwhere_eq in Hdst as [Hdst _].
    exists dst. split; [done|]. intros c Hc Hne1 Hne2.
    by eapply relocation_other_cells.
Qed.

Lemma count_three_states (l : list Z) :
  Forall valid_state l →
  (count TypeA l + count Empty l + count TypeB l = length l)%nat.
Proof.
  unfold count. induction 1 as [|v l Hv _ IH]; [done|].
  rewrite !filter_cons. unfold valid_state, TypeA, Empty, TypeB in *.
  repeat case_decide; simpl; lia.
Qed.

Lemma initial_grid_valid self draws :
  categorical_sample (prior_dist self) (size self) draws →
  wf_array (initial_grid self draws)
  ∧ Forall valid_state (data (initial_grid self draws)).
Proof.
  intros [Hlen Hall]. split.
  - unfold wf_array. simpl. by rewrite length_fmap.
  - simpl. apply Forall_fmap. eapply Forall_impl; [exact Hall|]. simpl.
    intros k (_ & _ & Hk & _). unfold valid_state, TypeA, Empty, TypeB. lia.
Qed.

(** X7. After every frame the grid has the configured shape, one cell
    per position, every cell in one of the three states, and the three
    populations add up to the number of cells. *)
Theorem grid_stays_valid self draws s (k : nat) (st : run_state rng) :
  categorical_sample (prior_dist self) (size self) draws →
  step_frames randbelow self k (initial_state self draws s) = Ok st →
  shape (grid st) = size self
  ∧ wf_array (grid st)
  ∧ Forall valid_state (data (grid st))
  ∧ (population TypeA (grid st) + population Empty (grid st)
     + population TypeB (grid st) = (size self).1 * (size self).2)%nat.
Proof.
  intros Hsample Hst. apply step_frames_rearranged in Hst. simpl in Hst.
  destruct (initial_grid_valid self draws Hsample) as [Hwf Hvalid].
  assert (Hwf' : wf_array (grid st)) by (by eapply rearranged_wf).
  destruct Hst as [Hshape Hperm].
  assert (Hvalid' : Forall valid_state (data (grid st))) by (by rewrite Hperm).
  split_and!; [done..|].
  unfold population. rewrite count_three_states by done.
  rewrite Hwf'. by rewrite Hshape.
Qed.

End EngineInvariants.

Lemma visit_touches_two_cells_witness :
  shape corridor_moved = shape corridor
  ∧ ∃ dst,
      in_bounds (Z.of_nat (shape corridor).1) (Z.of_nat (shape corridor).2) dst
      ∧ ∀ c, in_bounds (Z.of_nat (shape corridor).1)
               (Z.of_nat (shape corridor).2) c →
             c ≠ (0, 0) → c ≠ dst →
             getitem corridor_moved c = getitem corridor c.
Proof.
  apply (visit_touches_two_cells tape_randbelow corridor_model corridor
           empty_tape (0, 0) corridor_moved empty_tape).
  - unfold in_bounds. simpl. lia.
  - vm_compute. reflexivity.
Defined.

Lemma grid_stays_valid_witness :
  shape (grid demo_after_two) = size demo
  ∧ wf_array (grid demo_after_two)
  ∧ Forall valid_state (data (grid demo_after_two))
  ∧ (population TypeA (grid demo_after_two)
     + population Empty (grid demo_after_two)
     + population TypeB (grid demo_after_two)
     = (size demo).1 * (size demo).2)%nat.
Proof.
  apply (grid_stays_valid tape_randbelow demo demo_draws demo_tape 2
           demo_after_two).
  - sample_holds.
  - vm_compute. reflexivity.
Defined.

(** ** The engine: configurations on which a run cannot fail *)

Section EngineTotality.
Context {rng : Type} (randbelow : rng → nat → nat * rng).
Implicit Types (self : SchellingModel) (g : ndarray) (s : rng) (ij : coord).

Lemma find_neighbors_nonempty (xy : coord) (rows cols r : Z) :
  in_bounds rows cols xy → 1 ≤ r → 2 ≤ rows ∨ 2 ≤ cols →
  find_neighbors xy rows cols r ≠ [].
Proof.
  intros Hxy Hr Hdim Hnil. unfold in_bounds in Hxy.
  assert (∃ c, c ∈ find_neighbors xy rows cols r) as [c Hc];
    [|rewrite Hnil in Hc; by apply elem_of_nil in Hc].
  destruct xy as [x y]. simpl in *.
  destruct Hdim as [Hrows|Hcols].
  - destruct (decide (x + 1 < rows)).
    + exists (x + 1, y). apply elem_of_find_neighbors.
      unfold in_square, in_bounds. simpl.
      split; [lia|]. split; [intros [=]; lia|lia].
    + exists (x - 1, y). apply elem_of_find_neighbors.
      unfold in_square, in_bounds. simpl.
      split; [lia|]. split; [intros [=]; lia|lia].
  - destruct (decide (y + 1 < cols)).
    + exists (x, y + 1). apply elem_of_find_neighbors.
      unfold in_square, in_bounds. simpl.
      split; [lia|]. split; [intros [=]; lia|lia].
    + exists (x, y - 1). apply elem_of_find_neighbors.
      unfold in_square, in_bounds. simpl.
      split; [lia|]. split; [intros [=]; lia|lia].
Qed.

Lemma argwhere_eq_nonempty g (v : Z) :
  wf_array g → v ∈ data g → argwhere_eq g v ≠ [].
Proof.
  intros Hwf Hv Hnil.
  apply list_elem_of_lookup in Hv as [k Hk].
  pose proof (lookup_lt_Some _ _ _ Hk) as Hlt. rewrite Hwf in Hlt.
  destruct (shape g) as [h w] eqn:Hshape. simpl in *.
  assert (w ≠ O) by (intros ->; lia).
  assert (Hq : (k `div` w < h)%nat) by (apply Nat.Div0.div_lt_upper_bound; lia).
  assert (Hr : (k `mod` w < w)%nat) by (by apply Nat.mod_upper_bound).
  pose proof (Nat.div_mod_eq k w) as Hdm.
  assert (Hc : (Z.of_nat (k `div` w), Z.of_nat (k `mod` w)) ∈ argwhere_eq g v);
    [|rewrite Hnil in Hc; by apply elem_of_nil in Hc].
  apply elem_of_argwhere_eq. rewrite Hshape. simpl.
  split; [unfold in_bounds; simpl; lia|].
  apply getitem_Ok. exists k. split; [|done].
  rewrite offset_in_bounds by (rewrite Hshape; unfold in_bounds; simpl; lia).
  rewrite Hshape. simpl. f_equal. rewrite !Nat2Z.id. lia.
Qed.

Lemma for_each_Ok {S A : Type} (I : S → Prop) (body : S → A → result S)
    (xs : list A) (st : S) :
  (∀ t x, x ∈ xs → I t → ∃ t', body t x = Ok t' ∧ I t') →
  I st → ∃ st', for_each body xs st = Ok st' ∧ I st'.
Proof.
  revert st. induction xs as [|x xs IH]; intros st Hbody Hst; simpl.
  - by exists st.
  - destruct (Hbody st x) as (st1 & -> & Hst1); [by left|done|]. simpl.
    apply IH; [|done]. intros t y Hy. apply Hbody. by right.
Qed.

(** The condition under which no visit can fail: a grid of the
    configured shape, with one cell per position and an Empty cell. *)
Lemma visit_Ok self g0 g s ij :
  (∀ s n, (0 < n)%nat → ((randbelow s n).1 < n)%nat) →
  1 ≤ neighbor_size self →
  (2 ≤ (size self).1 ∨ 2 ≤ (size self).2)%nat →
  wf_array g0 → shape g0 = size self → Empty ∈ data g0 →
  rearranged g0 g →
  in_bounds (Z.of_nat (size self).1) (Z.of_nat (size self).2) ij →
  ∃ g' s', visit randbelow self (g, s) ij = Ok (g', s') ∧ rearranged g0 g'.
Proof.
  intros Hrb Hr Hdim Hwf0 Hshape0 Hempty0 Hg Hij.
  assert (Hwf : wf_array g) by (by eapply rearranged_wf).
  assert (Hshape : shape g = size self) by (destruct Hg; congruence).
  assert (Hempty : Empty ∈ data g) by (destruct Hg as [_ ->]; done).
  destruct (getitem_in_bounds g ij) as [v Hv]; [done|by rewrite Hshape|].
  destruct (decide (v = Empty)) as [->|Hocc].
  { exists g, s. by rewrite visit_empty. }
  assert (Hnb : total_neighbor_count g ij (neighbor_size self) ≠ O).
  { unfold total_neighbor_count. rewrite Hshape.
    intros Hlen%nil_length_inv. revert Hlen.
    apply find_neighbors_nonempty; [done|done|lia]. }
  pose proof (similarity_unfold g ij (neighbor_size self) (neighbor_tol self)
                Hwf) as Hsim.
  rewrite Hshape in Hsim. specialize (Hsim Hij).
  destruct (total_neighbor_count g ij (neighbor_size self)); [done|].
  destruct (same_fraction g ij (neighbor_size self) <? neighbor_tol self)%float.
  - pose proof (argwhere_eq_nonempty g Empty Hwf Hempty) as Hne.
    destruct (argwhere_eq g Empty !! (randbelow s (length (argwhere_eq g Empty))).1)
      as [dst|] eqn:Hdst.
    + destruct (visit_move_relocation randbelow self g s ij v dst
                  (randbelow s (length (argwhere_eq g Empty))).2)
        as (g' & Hvisit & Hrel); [done..| |].
      { apply random_choice_Ok. split; [done|].
        eexists. split; [apply surjective_pairing|done]. }
      exists g', (randbelow s (length (argwhere_eq g Empty))).2.
      split; [done|]. eapply rearranged_trans; [done|].
      by eapply relocation_rearranged.
    + apply lookup_ge_None in Hdst.
      specialize (Hrb s (length (argwhere_eq g Empty))).
      destruct (argwhere_eq g Empty); [done|]. simpl in *. lia.
  - exists g, s. by rewrite (visit_stay _ _ _ _ _ v).
Qed.

(** X8. On a grid of at least two cells with an Empty cell among them,
    with a radius of at least one, a non-zero [show_every] and a
    generator whose indices are in range, the run raises nothing: it
    returns after its last frame. *)
Theorem run_never_raises self draws s :
  (∀ s n, (0 < n)%nat → ((randbelow s n).1 < n)%nat) →
  show_every self ≠ 0 →
  1 ≤ neighbor_size self →
  (2 ≤ (size self).1 ∨ 2 ≤ (size self).2)%nat →
  length draws = ((size self).1 * (size self).2)%nat →
  1 ∈ draws →
  ∃ st, run randbelow self draws s = Ok st
    ∧ frame st = Z.max 0 (max_frame self).
Proof.
  intros Hrb Hse Hr Hdim Hlen Hone.
  set (g0 := initial_grid self draws).
  assert (Hwf0 : wf_array g0) by (unfold wf_array; simpl; by rewrite length_fmap).
  assert (Hempty0 : Empty ∈ data g0).
  { simpl. apply list_elem_of_fmap. by exists 1. }
  assert (Hsteps : ∀ n (st : run_state rng),
            rearranged g0 (grid st) →
            ∃ st', step_frames randbelow self n st = Ok st'
              ∧ frame st' = frame st + Z.of_nat n).
  { induction n as [|n IH]; intros st Hst.
    - exists st. split; [done|lia].
    - destruct (for_each_Ok (λ p, rearranged g0 p.1) (visit randbelow self)
                  (row_major (size self).1 (size self).2) (grid st, gen st))
        as ([g' s'] & Hsweep & Hg'); [|done|].
      { intros [g1 s1] c Hc%elem_of_row_major Hg1. simpl in *.
        destruct (visit_Ok self g0 g1 s1 c) as (g2 & s2 & Hv & Hg2); [done..|].
        by exists (g2, s2). }
      rewrite <- sweep_row_major in Hsweep. simpl.
      unfold frame_step, py_mod. rewrite decide_False by done. simpl.
      rewrite Hsweep. simpl.
      match goal with
      | |- ∃ st', step_frames _ _ _ ?st1 = _ ∧ _ =>
          destruct (IH st1) as (st2 & Hst2 & Hf); [done|]
      end.
      exists st2. split; [done|]. simpl in Hf. lia. }
  unfold run. rewrite while_frames_step_frames.
  destruct (Hsteps (Z.to_nat (max_frame self - frame (initial_state self draws s)))
              (initial_state self draws s)) as (st & Hst & Hf).
  { apply rearranged_refl. }
  exists st. split; [done|]. rewrite Hf. simpl. lia.
Qed.

End EngineTotality.

Lemma tape_randbelow_in_range (s : list nat) (n : nat) :
  (0 < n)%nat → ((tape_randbelow s n).1 < n)%nat.
Proof.
  intros Hn. destruct s as [|r s]; simpl; [done|].
  apply Nat.mod_upper_bound. lia.
Qed.

Lemma run_never_raises_witness :
  ∃ st, run tape_randbelow demo demo_draws demo_tape = Ok st
    ∧ frame st = Z.max 0 (max_frame demo).
Proof.
  apply (run_never_raises tape_randbelow demo demo_draws demo_tape).
  - apply tape_randbelow_in_range.
  - simpl. lia.
  - simpl. lia.
  - simpl. lia.
  - reflexivity.
  - apply list_elem_of_In. simpl. tauto.
Defined.

(** ** The engine: settled grids, snapshots and degenerate configurations *)

Section EngineRuns.
Context {rng : Type} (randbelow : rng → nat → nat * rng).
Implicit Types (self : SchellingModel) (g : ndarray) (s : rng) (ij : coord).

Lemma similarity_Ok_getitem g ij (r : Z) (tol : float) (b : bool) :
  similarity g ij r tol = Ok b → ∃ v, getitem g ij = Ok v.
Proof.
  unfold similarity. destruct (shape g) as [m n].
  destruct (list_comp _ _) as [vs|]; [|done]. simpl.
  destruct (getitem g ij) as [v|]; [|done]. by exists v.
Qed.

Lemma settled_sweep self g s :
  settled self g → sweep randbelow self (g, s) = Ok (g, s).
Proof.
  intros Hset. rewrite sweep_row_major. apply for_each_fixed.
  intros c Hc%elem_of_row_major.
  destruct (Hset c Hc) as [Hempty|Hstay]; [by apply visit_empty|].
  destruct (similarity_Ok_getitem _ _ _ _ _ Hstay) as [v Hv].
  destruct (decide (v = Empty)) as [->|Hocc]; [by apply visit_empty|].
  by apply (visit_stay _ _ _ _ _ v).
Qed.

(** X9. A grid on which every occupant is content is a fixed point of
    the run: every later frame leaves the grid as it is and draws nothing
    from the generator. *)
Theorem settled_grid_is_fixed self (n : nat) (st : run_state rng) :
  show_every self ≠ 0 →
  settled self (grid st) →
  sweep randbelow self (grid st, gen st) = Ok (grid st, gen st)
  ∧ ∃ st', step_frames randbelow self n st = Ok st'
      ∧ grid st' = grid st ∧ gen st' = gen st
      ∧ frame st' = frame st + Z.of_nat n.
Proof.
  intros Hse Hset. split; [by apply settled_sweep|].
  revert st Hset. induction n as [|n IH]; intros st Hset.
  - exists st. split_and!; [done..|lia].
  - simpl. unfold frame_step, py_mod. rewrite decide_False by done. simpl.
    rewrite settled_sweep by done. simpl.
    match goal with
    | |- ∃ st', step_frames _ _ _ ?st1 = _ ∧ _ =>
        destruct (IH st1) as (st' & Hst & Hg & Hs & Hf); [done|]
    end.
    exists st'. simpl in *. split_and!; [done..|lia].
Qed.

Lemma step_frames_snapshots self (n : nat) (st0 st : run_state rng)
    (f : Z) (g : ndarray) :
  step_frames randbelow self n st0 = Ok st →
  (f, g) ∈ shown st →
  (f, g) ∈ shown st0
  ∨ ∃ (j : nat) st_j,
      (j < n)%nat ∧ step_frames randbelow self j st0 = Ok st_j
      ∧ frame st_j = f ∧ grid st_j = g ∧ f mod show_every self = 0.
Proof.
  revert st0. induction n as [|n IH]; intros st0; simpl.
  - intros [= <-] Hin. by left.
  - intros (st1 & Hstep & Hrest)%bind_Ok Hin.
    destruct (IH st1 Hrest Hin) as [Hin1|(j & st_j & Hj & Hsj & Hf & Hg & Hm)].
    + apply frame_step_Ok in Hstep as (_ & g' & s' & _ & ->). simpl in Hin1.
      case_decide as Hmod; [|by left].
      apply elem_of_app in Hin1 as [Hin0|Hnew]; [by left|].
      apply list_elem_of_singleton in Hnew as [= -> ->].
      right. exists O, st0. split_and!; [lia|done..].
    + right. exists (S j), st_j. split_and!; [lia| |done..].
      simpl. by rewrite Hstep.
Qed.

(** X10. Every snapshot a run hands to the display is the grid as it
    stood after as many frames as the snapshot's number says, and that
    number is a multiple of [show_every] below [max_frame]. *)
Theorem snapshots_are_frame_grids self draws s (st : run_state rng)
    (f : Z) (g : ndarray) :
  run randbelow self draws s = Ok st →
  (f, g) ∈ shown st →
  0 ≤ f < max_frame self
  ∧ f mod show_every self = 0
  ∧ ∃ st_f, step_frames randbelow self (Z.to_nat f) (initial_state self draws s)
            = Ok st_f
      ∧ frame st_f = f ∧ grid st_f = g.
Proof.
  intros Hrun Hin. unfold run in Hrun.
  rewrite while_frames_step_frames in Hrun. simpl in Hrun.
  destruct (step_frames_snapshots _ _ _ _ _ _ Hrun Hin)
    as [Hnone|(j & st_j & Hj & Hsj & Hf & Hg & Hm)].
  { by apply elem_of_nil in Hnone. }
  pose proof (step_frames_frame _ _ _ _ _ Hsj) as Hfj. simpl in Hfj.
  assert (f = Z.of_nat j) as -> by lia.
  split_and!; [lia|lia|done|]. rewrite Nat2Z.id. by exists st_j.
Qed.

(** X11. Two configurations the constructor accepts and the loop treats
    specially, once the sampler has accepted [prior_dist] and returned the
    initial sample: with [max_frame <= 0] the run returns the initial
    grid at once, whatever the radius, the tolerance and [show_every]
    hold; with [show_every = 0] and at least one frame to run, the run
    raises [ZeroDivisionError] at the first frame, before visiting any
    cell. *)
Theorem run_degenerate_configurations self draws s :
  accepted_prior (prior_dist self) →
  categorical_sample (prior_dist self) (size self) draws →
  (max_frame self ≤ 0 →
   run randbelow self draws s = Ok (initial_state self draws s))
  ∧ (0 < max_frame self → show_every self = 0 →
     frame_step randbelow self (initial_state self draws s)
     = Raise ZeroDivisionError
     ∧ run randbelow self draws s = Raise ZeroDivisionError).
Proof.
  intros _ _. split.
  - intros HF. unfold run. rewrite while_frames_eq.
    by rewrite decide_False by (simpl; lia).
  - intros HF Hse.
    assert (Hstep : frame_step randbelow self (initial_state self draws s)
                    = Raise ZeroDivisionError).
    { unfold frame_step, py_mod. by rewrite decide_True. }
    split; [done|]. unfold run. rewrite while_frames_eq.
    rewrite decide_True by (simpl; lia). by rewrite Hstep.
Qed.

End EngineRuns.

Lemma run_degenerate_configurations_witness :
  run tape_randbelow no_frame demo_draws demo_tape
  = Ok (initial_state no_frame demo_draws demo_tape)
  ∧ frame_step tape_randbelow never_shown
      (initial_state never_shown demo_draws demo_tape)
    = Raise ZeroDivisionError
  ∧ run tape_randbelow never_shown demo_draws demo_tape
    = Raise ZeroDivisionError.
Proof.
  split.
  - apply (run_degenerate_configurations tape_randbelow no_frame demo_draws
             demo_tape).
    + exists 0.25%float, 0.5%float, 0.25%float. by split_and!.
    + sample_holds.
    + simpl. lia.
  - apply (run_degenerate_configurations tape_randbelow never_shown demo_draws
             demo_tape).
    + exists 0.25%float, 0.5%float, 0.25%float. by split_and!.
    + sample_holds.
    + simpl. lia.
    + reflexivity.
Defined.

Lemma settled_grid_is_fixed_witness :
  sweep tape_randbelow settled_model
    (grid (RunState settled_row 0 demo_tape []),
     gen (RunState settled_row 0 demo_tape []))
  = Ok (grid (RunState settled_row 0 demo_tape []),
        gen (RunState settled_row 0 demo_tape []))
  ∧ ∃ st', step_frames tape_randbelow settled_model 5
             (RunState settled_row 0 demo_tape []) = Ok st'
      ∧ grid st' = grid (RunState settled_row 0 demo_tape [])
      ∧ gen st' = gen (RunState settled_row 0 demo_tape [])
      ∧ frame st' = frame (RunState settled_row 0 demo_tape []) + Z.of_nat 5.
Proof.
  apply (settled_grid_is_fixed tape_randbelow settled_model 5
           (RunState settled_row 0 demo_tape [])).
  - simpl. lia.
  - intros [i j] [Hi Hj]. simpl in *.
    assert (i = 0) as -> by lia.
    assert (j = 0 ∨ j = 1 ∨ j = 2 ∨ j = 3) as [-> | [-> | [-> | ->]]] by lia;
      right; by vm_compute.
Defined.

Lemma snapshots_are_frame_grids_witness :
  0 ≤ 2 < max_frame demo
  ∧ 2 mod show_every demo = 0
  ∧ ∃ st_f, step_frames tape_randbelow demo (Z.to_nat 2)
              (initial_state demo demo_draws demo_tape) = Ok st_f
      ∧ frame st_f = 2 ∧ grid st_f = grid demo_after_two.
Proof.
  apply (snapshots_are_frame_grids tape_randbelow demo demo_draws demo_tape
           demo_final).
  - vm_compute. reflexivity.
  - simpl. apply list_elem_of_In. simpl. tauto.
Defined.

(** ** The engine treats the two occupant types alike *)

Section TypeSymmetry.
Context {rng : Type} (randbelow : rng → nat → nat * rng).
Implicit Types (self : SchellingModel) (g : ndarray) (s : rng) (ij : coord).

Lemma getitem_swap_types g (c : coord) :
  getitem (swap_types g) c
  = match getitem g c with Ok v => Ok (- v) | Raise e => Raise e end.
Proof.
  unfold getitem. rewrite (offset_shape (swap_types g) g) by done.
  destruct (offset g c) as [k|]; [|done]. simpl.
  rewrite list_lookup_fmap. by destruct (data g !! k).
Qed.

Lemma list_comp_swap_types g (cs : list coord) :
  list_comp (getitem (swap_types g)) cs
  = match list_comp (getitem g) cs with
    | Ok vs => Ok (Z.opp <$> vs)
    | Raise e => Raise e
    end.
Proof.
  induction cs as [|c cs IH]; [done|]. simpl.
  rewrite getitem_swap_types, IH.
  destruct (getitem g c); [|done]. simpl.
  by destruct (list_comp (getitem g) cs).
Qed.

Lemma count_opp (v : Z) (l : list Z) : count (- v) (Z.opp <$> l) = count v l.
Proof.
  unfold count. induction l as [|x l IH]; [done|].
  rewrite fmap_cons, !filter_cons.
  repeat case_decide; simpl; rewrite ?IH; lia.
Qed.

Lemma similarity_swap_types g (xy : coord) (r : Z) (tol : float) :
  similarity (swap_types g) xy r tol = similarity g xy r tol.
Proof.
  unfold similarity. simpl. destruct (shape g) as [m n].
  rewrite list_comp_swap_types, getitem_swap_types.
  destruct (list_comp _ _) as [vs|]; [|done]. simpl.
  destruct (getitem g xy) as [own|]; [|done]. simpl.
  by rewrite count_opp, length_fmap.
Qed.

Lemma argwhere_eq_swap_types g :
  argwhere_eq (swap_types g) Empty = argwhere_eq g Empty.
Proof.
  unfold argwhere_eq. simpl. apply list_filter_iff. intros c.
  rewrite getitem_swap_types. unfold Empty.
  destruct (getitem g c) as [v|]; [|done].
  split; intros [= Hv]; f_equal; lia.
Qed.

Lemma setitem_swap_types g (c : coord) (v : Z) :
  setitem (swap_types g) c (- v)
  = match setitem g c v with
    | Ok g' => Ok (swap_types g')
    | Raise e => Raise e
    end.
Proof.
  unfold setitem. rewrite (offset_shape (swap_types g) g) by done.
  destruct (offset g c) as [k|]; [|done]. simpl.
  unfold swap_types. simpl. by rewrite list_fmap_insert.
Qed.

Lemma visit_swap_types self (p1 p2 : ndarray * rng) ij :
  swapped_pair p1 p2 →
  result_rel swapped_pair (visit randbelow self p1 ij)
    (visit randbelow self p2 ij).
Proof.
  destruct p1 as [g s], p2 as [g2 s2]. intros [Hg Hs]. simpl in *. subst g2 s2.
  unfold visit. rewrite getitem_swap_types.
  destruct (getitem g ij) as [v|]; [|done]. simpl.
  destruct (decide (v = 0)) as [->|Hv].
  { rewrite decide_True by done. done. }
  rewrite decide_False by lia.
  rewrite similarity_swap_types.
  destruct (similarity g ij _ _) as [[]|]; [|done..]. simpl.
  fold Empty. rewrite argwhere_eq_swap_types.
  destruct (random_choice _ _ _) as [[dst s']|]; [|done]. simpl.
  rewrite setitem_swap_types.
  destruct (setitem g dst v) as [g1|]; [|done]. simpl.
  unfold Empty.
  rewrite (setitem_swap_types g1 ij 0 : setitem (swap_types g1) ij 0 = _).
  by destruct (setitem g1 ij 0).
Qed.

Lemma sweep_swap_types self (p1 p2 : ndarray * rng) :
  swapped_pair p1 p2 →
  result_rel swapped_pair (sweep randbelow self p1) (sweep randbelow self p2).
Proof.
  intros H. rewrite !sweep_row_major.
  apply for_each_rel; [|done]. intros. by apply visit_swap_types.
Qed.

Lemma frame_step_swap_types self (st1 st2 : run_state rng) :
  swapped_state st1 st2 →
  result_rel swapped_state (frame_step randbelow self st1)
    (frame_step randbelow self st2).
Proof.
  intros (Hg & Hf & Hs & Hsh). unfold frame_step. rewrite Hg, Hf, Hs, Hsh.
  destruct (py_mod _ _) as [r|]; [|done]. simpl.
  eapply result_rel_bind; [by apply (sweep_swap_types self (_, _) (_, _))|].
  intros [g1 t1] [g2 t2] [Hg12 Ht]. simpl in *. subst g2 t2.
  split_and!; [done..|]. simpl.
  case_decide; [|done]. by rewrite fmap_app.
Qed.

Lemma step_frames_swap_types self n (st1 st2 : run_state rng) :
  swapped_state st1 st2 →
  result_rel swapped_state (step_frames randbelow self n st1)
    (step_frames randbelow self n st2).
Proof.
  revert st1 st2. induction n as [|n IH]; intros st1 st2 H; [done|].
  simpl. eapply result_rel_bind; [by apply frame_step_swap_types|]. apply IH.
Qed.

Lemma initial_state_swap_types self draws s :
  swapped_state (initial_state self draws s)
    (initial_state self (swap_draws draws) s).
Proof.
  split_and!; [|done..]. simpl. unfold swap_types, initial_grid, swap_draws.
  simpl. f_equal. rewrite <- !list_fmap_compose.
  apply list_fmap_ext. intros _ k _. simpl. lia.
Qed.

(** X12. Exchanging the two occupant types in the initial sample
    exchanges them in every grid of the run and changes nothing else: the same
    cells move to the same destinations on the same draws, the same
    frames are shown, and the same exception, if any, ends the run. *)
Theorem run_symmetric_in_types self draws s :
  (∀ k, result_rel swapped_state
          (step_frames randbelow self k (initial_state self draws s))
          (step_frames randbelow self k
             (initial_state self (swap_draws draws) s)))
  ∧ result_rel swapped_state (run randbelow self draws s)
      (run randbelow self (swap_draws draws) s).
Proof.
  pose proof (initial_state_swap_types self draws s) as Hinit.
  split.
  - intros k. by apply step_frames_swap_types.
  - unfold run. rewrite !while_frames_step_frames.
    destruct Hinit as (_ & Hf & _). rewrite Hf.
    apply step_frames_swap_types. apply initial_state_swap_types.
Qed.

End TypeSymmetry.

(** ** [similarity] reads the window and nothing else *)

Lemma list_comp_ext {A B : Type} (f1 f2 : A → result B) (xs : list A) :
  (∀ x, x ∈ xs → f1 x = f2 x) → list_comp f1 xs = list_comp f2 xs.
Proof.
  induction xs as [|x xs IH]; intros H; [done|]. simpl.
  rewrite H by (by left). rewrite IH; [done|].
  intros y Hy. apply H. by right.
Qed.

(** X13. Two grids of one shape that agree on a cell and on its
    neighbours get the same answer from [similarity] at that cell,
    whatever the other cells hold. *)
Theorem similarity_local (g1 g2 : ndarray) (xy : coord) (r : Z) (tol : float) :
  shape g1 = shape g2 →
  getitem g1 xy = getitem g2 xy →
  (∀ c, c ∈ find_neighbors xy (Z.of_nat (shape g1).1) (Z.of_nat (shape g1).2) r →
        getitem g1 c = getitem g2 c) →
  similarity g1 xy r tol = similarity g2 xy r tol.
Proof.
  intros Hshape Hxy Hnb. unfold similarity. rewrite <- Hshape.
  destruct (shape g1) as [m n]. simpl in *.
  by rewrite (list_comp_ext (getitem g1) (getitem g2)), Hxy.
Qed.

Lemma similarity_local_witness :
  similarity fixture (0, 0) 1 0.5
  = similarity (NDArray (3%nat, 3%nat) [-1; -1; 1; 0; 1; 0; -1; -1; -1]) (0, 0) 1 0.5.
Proof.
  apply (similarity_local fixture
           (NDArray (3%nat, 3%nat) [-1; -1; 1; 0; 1; 0; -1; -1; -1]) (0, 0) 1 0.5).
  - reflexivity.
  - reflexivity.
  - intros c [Hsq [_ Hin]]%elem_of_find_neighbors.
    destruct c as [i j]. unfold in_square, in_bounds in *. simpl in *.
    assert (i = 0 ∨ i = 1) as [-> | ->] by lia;
      (assert (j = 0 ∨ j = 1) as [-> | ->] by lia); reflexivity.
Defined.
